(** * chess-review-v2: the move-review engine and the exploration line

    A shallow embedding of
      - [src/lib/chess-analysis.ts]  (material helpers, [classifyMove],
        [analyzeGame]),
      - [src/lib/opening-book.ts]    ([normalizeFen], [loadBook],
        [getOpeningBook], [isBookPosition]),
      - [src/hooks/useChessGame.ts]  ([extendVariation],
        [updateVariationEval]),
    followed by the properties of the review that the specification states.

    Conventions.
      - A JavaScript [number] holding centipawns, a piece value or an index
        is an integer here ([Z]); the one division of the program, in the
        accuracy score, is taken in the rationals ([Q]).
      - A promise is modelled by its settled value: [Some v] when it
        resolves with [v], [None] when it rejects.  [Promise.all] resolves
        exactly when all its members do ([mapM]).
      - chess.js is an external library.  What the program reads from it is
        data of the model: the verbose move list of the parsed game, the
        FEN reached after each move, and the legal replies of a position. *)

From Stdlib Require Import ZArith QArith Qminmax Lia Ascii String.
From stdpp Require Import base option list strings gmap.

Local Open Scope Z_scope.

(** ** String helpers (JavaScript [split], [join], [trim]) *)

Module Str.

(** [s.split(c)] for a one-character separator: never the empty list,
    [''.split(c)] is [['']]. *)
Fixpoint split (c : ascii) (s : string) : list string :=
  match s with
  | EmptyString => [EmptyString]
  | String a rest =>
      if Ascii.eqb a c then EmptyString :: split c rest
      else match split c rest with
           | [] => [String a EmptyString]
           | h :: t => String a h :: t
           end
  end.

(** [parts.join(sep)]. *)
Fixpoint join (sep : string) (parts : list string) : string :=
  match parts with
  | [] => EmptyString
  | [p] => p
  | p :: rest => p +:+ sep +:+ join sep rest
  end.

(** The white space [trim] removes, within the byte range. *)
Definition isSpace (a : ascii) : bool :=
  let n := nat_of_ascii a in
  ((9 <=? n)%nat && (n <=? 13)%nat) || (n =? 32)%nat.

Fixpoint trimStart (s : string) : string :=
  match s with
  | EmptyString => EmptyString
  | String a rest => if isSpace a then trimStart rest else s
  end.

Fixpoint trimEnd (s : string) : string :=
  match s with
  | EmptyString => EmptyString
  | String a rest =>
      match trimEnd rest with
      | EmptyString => if isSpace a then EmptyString else String a EmptyString
      | r => String a r
      end
  end.

Definition trim (s : string) : string := trimEnd (trimStart s).

Definition isEmpty (s : string) : bool :=
  match s with EmptyString => true | _ => false end.

End Str.

(** ** The rules adapter (chess.js), as far as the program reads it

    A [Chess] object is identified with the FEN it was built from. *)

Module ChessJs.

Inductive Color := White | Black.

Inductive PieceType := Pawn | Knight | Bishop | Rook | Queen | King.

Record Piece := mkPiece { ptype : PieceType; pcolor : Color }.

#[global] Instance Color_eq_dec : EqDecision Color.
Proof. solve_decision. Defined.

#[global] Instance PieceType_eq_dec : EqDecision PieceType.
Proof. solve_decision. Defined.

(** A verbose move of chess.js. *)
Record Move := mkMove {
  color : Color;
  from : string;
  to : string;
  san : string;
  captured : option PieceType;
  promotion : option string
}.

(** An entry of the game's history together with [after], the FEN
    [board.fen()] gives once the move has been replayed from the start
    position (chess-analysis.ts, lines 116-121). *)
Record Played := mkPlayed {
  move : Move;
  after : string
}.

(** [chess.board()]: eight rows, rank 8 first, each with eight squares from
    file a to file h. *)
Definition Board := list (list (option Piece)).

Module Fen.

Definition pieceOfChar (a : ascii) : option Piece :=
  match a with
  | "P"%char => Some (mkPiece Pawn White)
  | "N"%char => Some (mkPiece Knight White)
  | "B"%char => Some (mkPiece Bishop White)
  | "R"%char => Some (mkPiece Rook White)
  | "Q"%char => Some (mkPiece Queen White)
  | "K"%char => Some (mkPiece King White)
  | "p"%char => Some (mkPiece Pawn Black)
  | "n"%char => Some (mkPiece Knight Black)
  | "b"%char => Some (mkPiece Bishop Black)
  | "r"%char => Some (mkPiece Rook Black)
  | "q"%char => Some (mkPiece Queen Black)
  | "k"%char => Some (mkPiece King Black)
  | _ => None
  end.

(** One rank of the placement field: a digit is that many empty squares. *)
Fixpoint row (s : string) : list (option Piece) :=
  match s with
  | EmptyString => []
  | String a rest =>
      let n := nat_of_ascii a in
      if ((49 <=? n)%nat && (n <=? 56)%nat)%bool
      then replicate (n - 48)%nat None ++ row rest
      else pieceOfChar a :: row rest
  end.

(** The board of [new Chess(fen)]: the first field of the FEN, rank by
    rank. *)
Definition board (fen : string) : Board :=
  match Str.split " " fen with
  | placement :: _ => row <$> Str.split "/" placement
  | [] => []
  end.

(** [chess.get(square)] for a square written as file letter and rank
    digit. *)
Definition get (fen : string) (square : string) : option Piece :=
  match square with
  | String f (String r EmptyString) =>
      let file := (nat_of_ascii f - 97)%nat in
      let rank := (nat_of_ascii r - 48)%nat in
      if ((1 <=? rank)%nat && (rank <=? 8)%nat)%bool
      then rw ← board fen !! (8 - rank)%nat; sq ← rw !! file; sq
      else None
  | _ => None
  end.

End Fen.

(** [new Chess().fen()]. *)
Definition START_FEN : string :=
  "rnbqkbnr/pppppppp/8/8/8/8/PPPPPPPP/RNBQKBNR w KQkq - 0 1".

End ChessJs.

(** ** src/lib/opening-book.ts *)

Module OpeningBook.

(** [normalizeFen]: the first four space-separated fields of the FEN. *)
Definition normalizeFen (fen : string) : string :=
  Str.join " " (take 4 (Str.split " " fen)).

Definition isBookPosition (fen : string) (book : gset string) : bool :=
  bool_decide (normalizeFen fen ∈ book).

Definition files : list string := ["a"; "b"; "c"; "d"; "e"].

Definition tab : ascii := ascii_of_nat 9.
Definition newline : ascii := ascii_of_nat 10.

Section Load.

(** The settled value of [fetch('/openings/f.tsv')] followed by
    [res.text()], for the partition named [f]: [None] when either
    rejects. *)
Variable fetchText : string → option string.

(** What lines 28-40 add to [positions] for one move-sequence field: the
    normalized start position and the normalized position after every
    token chess.js accepts, up to the first result token or rejected
    move.  The [try]/[catch] blocks make this total. *)
Variable replayLine : string → list string.

(** The body of the loop over [lines] (lines 22-41). *)
Definition linePositions (line : string) : list string :=
  let parts := Str.split tab line in
  if (length parts <? 3)%nat then []
  else match parts !! 2%nat with
       | Some field =>
           let pgnSequence := Str.trim field in
           if Str.isEmpty pgnSequence then [] else replayLine pgnSequence
       | None => []
       end.

(** One partition: every line but the header. *)
Definition partitionPositions (text : string) : list string :=
  drop 1 (Str.split newline text) ≫= linePositions.

(** [loadBook]: [Promise.all] over the five partitions, each adding to the
    one shared set. *)
Definition loadBook : option (gset string) :=
  texts ← mapM fetchText files;
  Some (list_to_set (texts ≫= partitionPositions)).

(** The module-level cache: [bookPositions] and the settled
    [loadingPromise]. *)
Record Cache := mkCache {
  bookPositions : option (gset string);
  loadingPromise : option (option (gset string))
}.

Definition emptyCache : Cache := mkCache None None.

(** [getOpeningBook]: the cached set, else the promise already made, else
    a new load whose promise is kept (and whose set is cached once it
    resolves). *)
Definition getOpeningBook (c : Cache) : option (gset string) * Cache :=
  match bookPositions c with
  | Some b => (Some b, c)
  | None =>
      match loadingPromise c with
      | Some p => (p, c)
      | None => let p := loadBook in (p, mkCache p (Some p))
      end
  end.

(** The specification's wording: as soon as one partition is fetched, the
    load completes and holds the positions of every fetched partition. *)
Definition PartitionFailureTolerated : Prop :=
  (∃ f, f ∈ files ∧ is_Some (fetchText f)) →
  ∃ book, loadBook = Some book ∧
          ∀ f text key, f ∈ files → fetchText f = Some text →
                        key ∈ partitionPositions text → key ∈ book.

End Load.

End OpeningBook.

(** ** src/lib/api.ts *)

Module Api.

Record EvalResult := mkEval {
  evaluation : Z;
  bestMove : option string
}.

End Api.

(** ** src/lib/chess-analysis.ts *)

Module Analysis.

Import ChessJs.

Inductive MoveClassification :=
  | Brilliant | Great | Best | Excellent | Good
  | Inaccuracy | Mistake | Miss | Blunder | Book.

#[global] Instance MoveClassification_eq_dec : EqDecision MoveClassification.
Proof. solve_decision. Defined.

Record MoveReview := mkReview {
  san : string;
  uci : string;
  fen : string;
  fenBefore : string;
  cpLoss : Z;
  evaluation : Z;
  classification : MoveClassification;
  bestMoveUci : option string;
  clock : option string;
  isWhite : bool;
  moveNumber : nat
}.

Record AnalysisResponse := mkResponse {
  accuracy : Q;
  whitePlayer : string;
  blackPlayer : string;
  whiteElo : string;
  blackElo : string;
  timeControl : string;
  moves : list MoveReview
}.

(** *** Move classification thresholds *)

Definition classifyMove (cpLoss : Z) (isSacrifice isPunishment : bool)
  : MoveClassification :=
  let byLoss :=
    if isPunishment && (cpLoss <=? 15) then Great
    else if cpLoss =? 0 then Best
    else if cpLoss <=? 15 then Excellent
    else if cpLoss <=? 30 then Good
    else if cpLoss <=? 60 then Inaccuracy
    else if cpLoss <=? 120 then Mistake
    else if cpLoss <=? 250 then Miss
    else Blunder in
  if isSacrifice then
    if cpLoss <=? 15 then Brilliant
    else if cpLoss <=? 30 then Great
    else byLoss
  else byLoss.

(** *** Material helpers *)

Definition PIECE_VALUES (t : PieceType) : Z :=
  match t with
  | Pawn => 1 | Knight => 3 | Bishop => 3 | Rook => 5 | Queen => 9 | King => 0
  end.

(** The two counters of [materialBalance] after one square. *)
Definition countSquare (acc : Z * Z) (sq : option Piece) : Z * Z :=
  match sq with
  | None => acc
  | Some pc =>
      let v := PIECE_VALUES (ptype pc) in
      if decide (pcolor pc = White) then (acc.1 + v, acc.2)
      else (acc.1, acc.2 + v)
  end.

Definition materialBalance (chess : string) (forWhite : bool) : Z :=
  let counts := foldl (foldl countSquare) (0, 0) (Fen.board chess) in
  if forWhite then counts.1 - counts.2 else counts.2 - counts.1.

Section Rules.

(** [new Chess(fen).moves({ verbose: true })]: the legal moves of the side
    to move. *)
Variable legalMoves : string → list Move.

(** One turn of the loop of [maxMaterialLossAfterMove]. *)
Definition lossStep (chess : string) (ourColor : Color)
    (maxLoss : Z) (m : Move) : Z :=
  match captured m with
  | None => maxLoss
  | Some cap =>
      match Fen.get chess (to m) with
      | None => maxLoss
      | Some target =>
          if decide (pcolor target = ourColor) then maxLoss
          else Z.max maxLoss (PIECE_VALUES cap)
      end
  end.

Definition maxMaterialLossAfterMove (chess : string) (forWhite : bool) : Z :=
  let ourColor := if forWhite then White else Black in
  foldl (lossStep chess ourColor) 0 (legalMoves chess).

(** Lines 157-162 of [analyzeGame]. *)
Definition sacrificeTest (fenBefore fenAfter : string) (isWhite : bool)
  : bool :=
  let b1 := materialBalance fenBefore isWhite in
  let b2 := materialBalance fenAfter isWhite in
  let maxLoss := maxMaterialLossAfterMove fenAfter isWhite in
  b2 - maxLoss - b1 <=? -2.

(** *** The classification pass (step 4 of [analyzeGame]) *)

Section Pass.

(** [chess.history({ verbose: true })] of the loaded PGN. *)
Variable history : list Played.
(** [extractClocks(pgn)]. *)
Variable clocks : list string.
(** The gathered answers of the evaluator, one per FEN. *)
Variable evalResults : list Api.EvalResult.
(** The opening book. *)
Variable book : gset string.

(** Step 1: the start position and the position after every move. *)
Definition fens : list string := START_FEN :: (after <$> history).

Definition evaluations : list Z := Api.evaluation <$> evalResults.

(** Lines 152-154. *)
Definition rawCpLoss (isWhite : bool) (evalBefore evalAfter : Z) : Z :=
  if isWhite then Z.max 0 (evalBefore - evalAfter)
  else Z.max 0 (evalAfter - evalBefore).

(** Punishment detection (lines 165-172), for ply [i] whose loss before
    the book check is [cpLoss]. *)
Definition punishmentAt (i : nat) (cpLoss : Z) : option bool :=
  match i with
  | O => Some false
  | S j =>
      prev ← move <$> history !! j;
      evalPrev ← evaluations !! j;
      evalHere ← evaluations !! i;
      let prevIsWhite := bool_decide (color prev = White) in
      let prevLoss :=
        if prevIsWhite then Z.max 0 (evalPrev - evalHere)
        else Z.max 0 (evalHere - evalPrev) in
      Some ((120 <=? prevLoss) && (cpLoss <=? 15))
  end.

Definition needsBestMove (c : MoveClassification) : bool :=
  bool_decide (c ∈ [Inaccuracy; Mistake; Miss; Blunder; Excellent; Good]).

(** The body of the loop for ply [i], entered with the flag [inBook]:
    the review pushed and the flag left behind.  [None] stands for a
    read of an index that no array has, which the loop never makes
    (see [pass_total]). *)
Definition plyReview (i : nat) (inBook : bool)
  : option (MoveReview * bool) :=
  move ← move <$> history !! i;
  evalBefore ← evaluations !! i;
  evalAfter ← evaluations !! (i + 1)%nat;
  fenBefore ← fens !! i;
  fenAfter ← fens !! (i + 1)%nat;
  result ← evalResults !! i;
  let isWhite := bool_decide (color move = White) in
  let cpLoss := rawCpLoss isWhite evalBefore evalAfter in
  let isSacrifice := sacrificeTest fenBefore fenAfter isWhite in
  isPunishment ← punishmentAt i cpLoss;
  let '(classification, cpLoss, inBook) :=
    if inBook && OpeningBook.isBookPosition fenAfter book
    then (Book, 0, inBook)
    else (classifyMove cpLoss isSacrifice isPunishment, cpLoss, false) in
  let bestMoveUci :=
    if needsBestMove classification then Api.bestMove result else None in
  Some ({| san := ChessJs.san move;
           uci := from move +:+ to move +:+ default EmptyString (promotion move);
           fen := fenAfter;
           fenBefore := fenBefore;
           cpLoss := cpLoss;
           evaluation := evalAfter;
           classification := classification;
           bestMoveUci := bestMoveUci;
           clock := clocks !! i;
           isWhite := isWhite;
           moveNumber := (i / 2 + 1)%nat |}, inBook).

(** The variables the loop updates. *)
Record LoopState := mkLoop {
  reviews : list MoveReview;
  totalCpLoss : Z;
  inBook : bool
}.

Definition initLoop : LoopState := mkLoop [] 0 true.

Definition loopBody (i : nat) (st : LoopState) : option LoopState :=
  '(r, inBook') ← plyReview i (inBook st);
  Some (mkLoop (reviews st ++ [r]) (totalCpLoss st + cpLoss r) inBook').

(** [for (let i = ...; i < history.length; i++)], with [n] turns left. *)
Fixpoint loopFrom (n i : nat) (st : LoopState) : option LoopState :=
  match n with
  | O => Some st
  | S n' => st' ← loopBody i st; loopFrom n' (S i) st'
  end.

Definition pass : option LoopState :=
  loopFrom (length history) 0 initLoop.

(** The same run as a relation: the reviews pushed from ply [i] on,
    with the flag [inBook] before the first and after the last. *)
Inductive PlyChain : nat → bool → list MoveReview → bool → Prop :=
| chain_done i ib : PlyChain i ib [] ib
| chain_step i ib r ib' rs ib'' :
    plyReview i ib = Some (r, ib') →
    PlyChain (S i) ib' rs ib'' →
    PlyChain i ib (r :: rs) ib''.

(** The loss before the book check of ply [i] (lines 152-154), read off
    the trace. *)
Definition rawLossAt (i : nat) : option Z :=
  move ← move <$> history !! i;
  evalBefore ← evaluations !! i;
  evalAfter ← evaluations !! (i + 1)%nat;
  Some (rawCpLoss (bool_decide (color move = White)) evalBefore evalAfter).

End Pass.

(** *** The specification's wording, for comparison with the code *)

(** The threshold table of the specification: the first row whose guard
    holds gives the class, [Blunder] when none does. *)
Definition thresholdTable (cpLoss : Z) (sacrifice punishment : bool)
  : list (bool * MoveClassification) :=
  [ (sacrifice && (cpLoss <=? 15), Brilliant);
    (sacrifice && (cpLoss <=? 30), Great);
    (punishment && (cpLoss <=? 15), Great);
    (cpLoss =? 0, Best);
    (cpLoss <=? 15, Excellent);
    (cpLoss <=? 30, Good);
    (cpLoss <=? 60, Inaccuracy);
    (cpLoss <=? 120, Mistake);
    (cpLoss <=? 250, Miss) ].

Definition firstMatch (table : list (bool * MoveClassification))
  : MoveClassification :=
  match filter (λ row, row.1 = true) table with
  | row :: _ => row.2
  | [] => Blunder
  end.

(** The largest value among the pieces the capturing replies of the
    position take. *)
Definition maxRecapturableLoss (chess : string) : Z :=
  foldl (λ best m, match captured m with
                   | Some cap => Z.max best (PIECE_VALUES cap)
                   | None => best
                   end) 0 (legalMoves chess).

(** The sacrifice test with that quantity in place of
    [maxMaterialLossAfterMove]. *)
Definition sacrificeAsSpecified (fenBefore fenAfter : string)
    (isWhite : bool) : bool :=
  materialBalance fenAfter isWhite - maxRecapturableLoss fenAfter
    - materialBalance fenBefore isWhite <=? -2.

(** The punishment test read against the loss recorded in the previous
    review, for every ply after the first. *)
Definition PunishmentFollowsRecordedLoss (history : list Played)
    (evalResults : list Api.EvalResult) (reviews : list MoveReview) : Prop :=
  ∀ i prev raw,
    reviews !! i = Some prev →
    rawLossAt history evalResults (S i) = Some raw →
    (punishmentAt history evalResults (S i) raw = Some true
     ↔ 120 ≤ cpLoss prev ∧ raw ≤ 15).

(** [bestMoveUci] present exactly for the six classes. *)
Definition BestMoveIffSuboptimal (r : MoveReview) : Prop :=
  bestMoveUci r ≠ None
  ↔ classification r ∈ [Inaccuracy; Mistake; Miss; Blunder; Excellent; Good].

Definition sumCpLoss (rs : list MoveReview) : Z :=
  foldr (λ r acc, cpLoss r + acc) 0 rs.

(** *** Accuracy (lines 204-205) *)

Definition accuracyOf (totalCpLoss : Z) (count : nat) : Q :=
  let avgCpLoss :=
    if decide (count = 0%nat) then 0%Q
    else (inject_Z totalCpLoss / inject_Z (Z.of_nat count))%Q in
  Qmax 0 (100 - avgCpLoss / 10)%Q.

(** *** [analyzeGame] *)

(** What the program reads from the PGN text: the move list chess.js
    parses from it, the clock annotations and the header tags the two
    regular expressions extract. *)
Record ParsedPgn := mkPgn {
  pgnHistory : list Played;
  pgnClocks : list string;
  pgnHeader : string → string
}.

(** The evaluator: the settled answer to the [i]-th request, made for
    [fen] at [depth]. *)
Variable evaluatePosition : nat → string → nat → option Api.EvalResult.

Variable fetchText : string → option string.
Variable replayLine : string → list string.

(** Step 2: [Promise.all] over one request per FEN. *)
Definition gatherEvaluations (history : list Played) (depth : nat)
  : option (list Api.EvalResult) :=
  mapM (λ p, evaluatePosition p.1 p.2 depth) (imap pair (fens history)).

Definition respond (pgn : ParsedPgn) (st : LoopState) : AnalysisResponse :=
  {| accuracy := accuracyOf (totalCpLoss st) (length (reviews st));
     whitePlayer := pgnHeader pgn "White";
     blackPlayer := pgnHeader pgn "Black";
     whiteElo := pgnHeader pgn "WhiteElo";
     blackElo := pgnHeader pgn "BlackElo";
     timeControl := pgnHeader pgn "TimeControl";
     moves := reviews st |}.

(** [analyzeGame(pgn, depth)], run with the book cache in state [cache]:
    its settled value and the cache it leaves. *)
Definition analyzeGame (pgn : ParsedPgn) (depth : nat)
    (cache : OpeningBook.Cache)
  : option AnalysisResponse * OpeningBook.Cache :=
  match gatherEvaluations (pgnHistory pgn) depth with
  | None => (None, cache)
  | Some evalResults =>
      let '(loaded, cache') :=
        OpeningBook.getOpeningBook fetchText replayLine cache in
      match loaded with
      | None => (None, cache')
      | Some book =>
          (respond pgn <$> pass (pgnHistory pgn) (pgnClocks pgn) evalResults book,
           cache')
      end
  end.

End Rules.

End Analysis.

(** ** src/hooks/useChessGame.ts *)

Module Game.

Record VariationNode := mkNode {
  san : string;
  fen : string;
  eval : option Z
}.

Inductive Orientation := white | black.

(** The [useState] cells of the hook. *)
Record State := mkState {
  currentMoveIndex : Z;
  orientation : Orientation;
  showTimestamps : bool;
  isVariation : bool;
  variationMoves : list VariationNode;
  variationIndex : Z;
  variationBaseIndex : Z
}.

(** [arr.slice(0, stop)]: a negative [stop] counts from the end. *)
Definition slice0 {A} (stop : Z) (arr : list A) : list A :=
  let len := Z.of_nat (length arr) in
  let k := if stop <? 0 then Z.max (len + stop) 0 else Z.min stop len in
  take (Z.to_nat k) arr.

(** [arr[idx]] for an integer [idx]: [undefined] outside the array. *)
Definition at_index {A} (arr : list A) (idx : Z) : option A :=
  if idx <? 0 then None else arr !! Z.to_nat idx.

Definition setVariationMoves (f : list VariationNode → list VariationNode)
    (st : State) : State :=
  mkState (currentMoveIndex st) (orientation st) (showTimestamps st)
    (isVariation st) (f (variationMoves st)) (variationIndex st)
    (variationBaseIndex st).

Definition setVariationIndex (f : Z → Z) (st : State) : State :=
  mkState (currentMoveIndex st) (orientation st) (showTimestamps st)
    (isVariation st) (variationMoves st) (f (variationIndex st))
    (variationBaseIndex st).

(** The callback [extendVariation] of a render in which [variationIndex]
    had the value [captured]: the list updater reads the captured value,
    the index updater the current one. *)
Definition extendVariationOf (captured : Z) (san fen : string) (st : State)
  : State :=
  let st1 :=
    setVariationMoves
      (λ prev, let trimmed := slice0 (captured + 1) prev in
               trimmed ++ [mkNode san fen None]) st in
  setVariationIndex (λ prev, prev + 1) st1.

(** [extendVariation] as the current render hands it out
    ([useCallback] with dependency [variationIndex]). *)
Definition extendVariation (san fen : string) (st : State) : State :=
  extendVariationOf (variationIndex st) san fen st.

Definition updateVariationEval (idx : Z) (evalVal : Z) (st : State) : State :=
  setVariationMoves
    (λ prev,
       let copy := prev in
       match at_index copy idx with
       | Some node =>
           <[Z.to_nat idx := mkNode (san node) (fen node) (Some evalVal)]> copy
       | None => copy
       end) st.

End Game.

(** ** A concrete game: 1. e4 d5 2. Qg4

    The positions reached and, for each, the legal replies of the side to
    move, listed piece by piece.  They serve as inputs wherever a statement
    is checked on a concrete run. *)

Module Sample.

Import ChessJs.

Definition quiet (c : Color) (f t s : string) : Move :=
  mkMove c f t s None None.

Definition takes (c : Color) (f t s : string) (p : PieceType) : Move :=
  mkMove c f t s (Some p) None.

Definition fen1 : string :=
  "rnbqkbnr/pppppppp/8/8/4P3/8/PPPP1PPP/RNBQKBNR b KQkq - 0 1".
Definition fen2 : string :=
  "rnbqkbnr/ppp1pppp/8/3p4/4P3/8/PPPP1PPP/RNBQKBNR w KQkq - 0 2".
Definition fen3 : string :=
  "rnbqkbnr/ppp1pppp/8/3p4/4P1Q1/8/PPPP1PPP/RNB1KBNR b KQkq - 1 2".

Definition e4 : Played := mkPlayed (quiet White "e2" "e4" "e4") fen1.
Definition d5 : Played := mkPlayed (quiet Black "d7" "d5" "d5") fen2.
Definition Qg4 : Played := mkPlayed (quiet White "d1" "g4" "Qg4") fen3.

(** Black's replies to 1. e4. *)
Definition replies1 : list Move :=
  [ quiet Black "a7" "a6" "a6"; quiet Black "a7" "a5" "a5";
    quiet Black "b7" "b6" "b6"; quiet Black "b7" "b5" "b5";
    quiet Black "c7" "c6" "c6"; quiet Black "c7" "c5" "c5";
    quiet Black "d7" "d6" "d6"; quiet Black "d7" "d5" "d5";
    quiet Black "e7" "e6" "e6"; quiet Black "e7" "e5" "e5";
    quiet Black "f7" "f6" "f6"; quiet Black "f7" "f5" "f5";
    quiet Black "g7" "g6" "g6"; quiet Black "g7" "g5" "g5";
    quiet Black "h7" "h6" "h6"; quiet Black "h7" "h5" "h5";
    quiet Black "b8" "a6" "Na6"; quiet Black "b8" "c6" "Nc6";
    quiet Black "g8" "f6" "Nf6"; quiet Black "g8" "h6" "Nh6" ].

(** White's replies to 1... d5. *)
Definition replies2 : list Move :=
  [ quiet White "a2" "a3" "a3"; quiet White "a2" "a4" "a4";
    quiet White "b2" "b3" "b3"; quiet White "b2" "b4" "b4";
    quiet White "c2" "c3" "c3"; quiet White "c2" "c4" "c4";
    quiet White "d2" "d3" "d3"; quiet White "d2" "d4" "d4";
    quiet White "e4" "e5" "e5"; takes White "e4" "d5" "exd5" Pawn;
    quiet White "f2" "f3" "f3"; quiet White "f2" "f4" "f4";
    quiet White "g2" "g3" "g3"; quiet White "g2" "g4" "g4";
    quiet White "h2" "h3" "h3"; quiet White "h2" "h4" "h4";
    quiet White "b1" "a3" "Na3"; quiet White "b1" "c3" "Nc3";
    quiet White "g1" "e2" "Ne2"; quiet White "g1" "f3" "Nf3";
    quiet White "g1" "h3" "Nh3";
    quiet White "f1" "e2" "Be2"; quiet White "f1" "d3" "Bd3";
    quiet White "f1" "c4" "Bc4"; quiet White "f1" "b5" "Bb5+";
    quiet White "f1" "a6" "Ba6";
    quiet White "d1" "e2" "Qe2"; quiet White "d1" "f3" "Qf3";
    quiet White "d1" "g4" "Qg4"; quiet White "d1" "h5" "Qh5";
    quiet White "e1" "e2" "Ke2" ].

(** Black's replies to 2. Qg4: the bishop on c8 can take the queen. *)
Definition replies3 : list Move :=
  [ quiet Black "a7" "a6" "a6"; quiet Black "a7" "a5" "a5";
    quiet Black "b7" "b6" "b6"; quiet Black "b7" "b5" "b5";
    quiet Black "c7" "c6" "c6"; quiet Black "c7" "c5" "c5";
    quiet Black "d5" "d4" "d4"; takes Black "d5" "e4" "dxe4" Pawn;
    quiet Black "e7" "e6" "e6"; quiet Black "e7" "e5" "e5";
    quiet Black "f7" "f6" "f6"; quiet Black "f7" "f5" "f5";
    quiet Black "g7" "g6" "g6"; quiet Black "g7" "g5" "g5";
    quiet Black "h7" "h6" "h6"; quiet Black "h7" "h5" "h5";
    quiet Black "b8" "a6" "Na6"; quiet Black "b8" "c6" "Nc6";
    quiet Black "b8" "d7" "Nd7";
    quiet Black "g8" "f6" "Nf6"; quiet Black "g8" "h6" "Nh6";
    quiet Black "c8" "d7" "Bd7"; quiet Black "c8" "e6" "Be6";
    quiet Black "c8" "f5" "Bf5"; takes Black "c8" "g4" "Bxg4" Queen;
    quiet Black "d8" "d7" "Qd7"; quiet Black "d8" "d6" "Qd6" ].

Definition legalMoves (fen : string) : list Move :=
  if decide (fen = fen1) then replies1
  else if decide (fen = fen2) then replies2
  else if decide (fen = fen3) then replies3
  else [].

Definition game : Analysis.ParsedPgn :=
  Analysis.mkPgn [e4; d5; Qg4] [] (λ _, "?").

(** The same game cut after Black's first move, and after White's. *)
Definition game2 : Analysis.ParsedPgn :=
  Analysis.mkPgn [e4; d5] [] (λ _, "?").
Definition game1 : Analysis.ParsedPgn :=
  Analysis.mkPgn [e4] [] (λ _, "?").

(** Evaluators. *)
Definition evalFlat (i : nat) (fen : string) (depth : nat)
  : option Api.EvalResult :=
  Some (Api.mkEval 0 (Some "e2e4")).

(** 0 at the start, -150 from then on: White's first move loses 150. *)
Definition evalDrop (i : nat) (fen : string) (depth : nat)
  : option Api.EvalResult :=
  Some (Api.mkEval (if decide (i = 0%nat) then 0 else -150) (Some "d2d4")).

(** +20 at the start, -300 after the move, and no best move reported. *)
Definition evalSwingNoBest (i : nat) (fen : string) (depth : nat)
  : option Api.EvalResult :=
  Some (Api.mkEval (if decide (i = 0%nat) then 20 else -300) None).

(** Opening tables.  Partition a holds the one line 1. e4. *)
Definition tableA : string :=
  "eco" +:+ String OpeningBook.tab "name" +:+ String OpeningBook.tab "pgn"
  +:+ String OpeningBook.newline
  ("B00" +:+ String OpeningBook.tab "King's Pawn" +:+ String OpeningBook.tab "1. e4"
   +:+ String OpeningBook.newline "").

Definition replayLine (pgnSequence : string) : list string :=
  if decide (pgnSequence = "1. e4")
  then [OpeningBook.normalizeFen START_FEN; OpeningBook.normalizeFen fen1]
  else [].

(** Every partition is fetched; only a has rows. *)
Definition fetchAll (f : string) : option string :=
  if decide (f = "a") then Some tableA else Some "".

(** Partition a is fetched, the fetch of the others rejects. *)
Definition fetchOnlyA (f : string) : option string :=
  if decide (f = "a") then Some tableA else None.

(** Every partition is fetched and none has rows. *)
Definition fetchEmpty (f : string) : option string := Some "".

(** The book partition a yields. *)
Definition bookA : gset string :=
  list_to_set [OpeningBook.normalizeFen START_FEN; OpeningBook.normalizeFen fen1].

(** A review run from a cold book cache at depth 10. *)
Definition run (evaluator : nat → string → nat → option Api.EvalResult)
    (fetch : string → option string) (pgn : Analysis.ParsedPgn)
  : option Analysis.AnalysisResponse :=
  (Analysis.analyzeGame legalMoves evaluator fetch replayLine pgn 10
     OpeningBook.emptyCache).1.

Definition respond (rs : list Analysis.MoveReview) : Analysis.AnalysisResponse :=
  Analysis.mkResponse
    (Analysis.accuracyOf (Analysis.sumCpLoss rs) (length rs))
    "?" "?" "?" "?" "?" rs.

(** [game2] under [evalDrop] with the book of [fetchAll]: 1. e4 is a book
    move, 1... d5 is not. *)
Definition e4Book : Analysis.MoveReview :=
  Analysis.mkReview "e4" "e2e4" fen1 START_FEN 0 (-150) Analysis.Book
    None None true 1.
Definition d5Great : Analysis.MoveReview :=
  Analysis.mkReview "d5" "d7d5" fen2 fen1 0 (-150) Analysis.Great
    None None false 1.

(** [game1] under [evalSwingNoBest] with an empty book. *)
Definition e4Blunder : Analysis.MoveReview :=
  Analysis.mkReview "e4" "e2e4" fen1 START_FEN 320 (-300) Analysis.Blunder
    None None true 1.

(** [game] under [evalFlat] with the book of [fetchAll]. *)
Definition e4Flat : Analysis.MoveReview :=
  Analysis.mkReview "e4" "e2e4" fen1 START_FEN 0 0 Analysis.Book
    None None true 1.
Definition d5Flat : Analysis.MoveReview :=
  Analysis.mkReview "d5" "d7d5" fen2 fen1 0 0 Analysis.Best
    None None false 1.
Definition Qg4Flat : Analysis.MoveReview :=
  Analysis.mkReview "Qg4" "d1g4" fen3 fen2 0 0 Analysis.Best
    None None true 2.

(** An exploration line [a; b; c]. *)
Definition nodeA : Game.VariationNode := Game.mkNode "e4" fen1 (Some 30).
Definition nodeB : Game.VariationNode := Game.mkNode "d5" fen2 (Some 25).
Definition nodeC : Game.VariationNode := Game.mkNode "Qg4" fen3 None.

Definition nodeD : Game.VariationNode := Game.mkNode "Nf3" fen3 None.

Definition exploring (cursor : Z) : Game.State :=
  Game.mkState 5 Game.white false true [nodeA; nodeB; nodeC] cursor 5.

End Sample.

(** ** src/types/analysis.ts *)

Module Types.

Record MoveResult := mkMoveResult {
  san : string;
  uci : string;
  fen : string;
  fenBefore : string;
  evaluation : Z;
  cpLoss : Z;
  classification : string;
  bestMoveUci : option string;
  clock : option string;
  isWhite : bool;
  moveNumber : nat
}.

End Types.

(** ** src/hooks/useChessGame.ts, the rest of the hook

    The hook is given [data], an [AnalyzeResponse] or [null]; it reads
    nothing of it but [data.moves], so [data] is that list or [None].  Every
    callback is the one of the current render: the values it captured are
    those of the state it is applied to. *)

Module Nav.

Import Game.

Definition setCurrentMoveIndex (f : Z → Z) (st : State) : State :=
  mkState (f (currentMoveIndex st)) (orientation st) (showTimestamps st)
    (isVariation st) (variationMoves st) (variationIndex st)
    (variationBaseIndex st).

Definition setOrientation (f : Orientation → Orientation) (st : State)
  : State :=
  mkState (currentMoveIndex st) (f (orientation st)) (showTimestamps st)
    (isVariation st) (variationMoves st) (variationIndex st)
    (variationBaseIndex st).

Definition setIsVariation (b : bool) (st : State) : State :=
  mkState (currentMoveIndex st) (orientation st) (showTimestamps st)
    b (variationMoves st) (variationIndex st) (variationBaseIndex st).

Definition setVariationBaseIndex (k : Z) (st : State) : State :=
  mkState (currentMoveIndex st) (orientation st) (showTimestamps st)
    (isVariation st) (variationMoves st) (variationIndex st) k.

(** The [useState] initial values. *)
Definition initial : State := mkState 0 white false false [] (-1) 0.

(** What [prevMove] returns. *)
Inductive Outcome := undo | exit_variation | noop.

Section Hook.

Variable data : option (list Types.MoveResult).

Definition mainFens : list string :=
  match data with
  | Some moves => ChessJs.START_FEN :: (Types.fen <$> moves)
  | None => [ChessJs.START_FEN]
  end.

(** [data?.moves ?? []]. *)
Definition rawMoves : list Types.MoveResult := default [] data.

Definition evaluations : list Z :=
  match data with
  | Some moves => 0 :: (Types.evaluation <$> moves)
  | None => [0]
  end.

(** [mainFens.length - 1]. *)
Definition lastIndex : Z := Z.of_nat (length mainFens) - 1.

(** *** Derived current state ([None] is [undefined] or [null]) *)

Definition currentFen (st : State) : option string :=
  if isVariation st then
    match at_index (variationMoves st) (variationIndex st) with
    | Some node => Some (fen node)
    | None => at_index mainFens (currentMoveIndex st)
    end
  else at_index mainFens (currentMoveIndex st).

Definition currentEval (st : State) : Z :=
  if isVariation st then
    default 0 (at_index (variationMoves st) (variationIndex st) ≫= eval)
  else default 0 (at_index evaluations (currentMoveIndex st)).

Definition currentMoveData (st : State) : option Types.MoveResult :=
  if negb (isVariation st) && (currentMoveIndex st >? 0)
  then at_index rawMoves (currentMoveIndex st - 1)
  else None.

(** *** Navigation *)

Definition goToMove (index : Z) (st : State) : State :=
  setCurrentMoveIndex (λ _, Z.max 0 (Z.min index lastIndex))
    (setIsVariation false st).

Definition nextMove (st : State) : option string * State :=
  if negb (isVariation st) then
    let next := Z.min (currentMoveIndex st + 1) lastIndex in
    if next =? currentMoveIndex st then (None, st)
    else (Types.san <$> at_index rawMoves (next - 1),
          setCurrentMoveIndex (λ _, next) st)
  else
    let next :=
      Z.min (variationIndex st + 1)
        (Z.of_nat (length (variationMoves st)) - 1) in
    if next =? variationIndex st then (None, st)
    else (san <$> at_index (variationMoves st) next,
          setVariationIndex (λ _, next) st).

Definition prevMove (st : State) : Outcome * State :=
  if isVariation st then
    if variationIndex st >? 0
    then (undo, setVariationIndex (λ v, v - 1) st)
    else (exit_variation, setIsVariation false st)
  else
    if currentMoveIndex st >? 0
    then (undo, setCurrentMoveIndex (λ i, i - 1) st)
    else (noop, st).

Definition exitVariation (st : State) : State := setIsVariation false st.

Definition flipBoard (st : State) : State :=
  setOrientation (λ o, match o with white => black | black => white end) st.

(** *** Variation branching *)

Definition startVariation (san fen : string) (st : State) : State :=
  let st1 := setIsVariation true st in
  let st2 := setVariationBaseIndex (currentMoveIndex st) st1 in
  let node := mkNode san fen None in
  let st3 := setVariationMoves (λ _, [node]) st2 in
  setVariationIndex (λ _, 0) st3.

Definition loadVariation (sequence : list VariationNode) (st : State)
  : State :=
  if negb (isVariation st) then
    let st1 := setIsVariation true st in
    let st2 := setVariationBaseIndex (currentMoveIndex st) st1 in
    let st3 := setVariationMoves (λ _, sequence) st2 in
    setVariationIndex (λ _, Z.of_nat (length sequence) - 1) st3
  else
    let st1 :=
      setVariationMoves
        (λ prev, let trimmed := slice0 (variationIndex st + 1) prev in
                 trimmed ++ sequence) st in
    setVariationIndex
      (λ _, variationIndex st + Z.of_nat (length sequence)) st1.

Definition goToVariationMove (idx : Z) (st : State) : State :=
  setVariationIndex
    (λ _, Z.max 0 (Z.min idx (Z.of_nat (length (variationMoves st)) - 1))) st.

(** *** The operations as events, and the states they reach *)

Inductive Action :=
  | GoToMove (index : Z)
  | NextMove
  | PrevMove
  | ExitVariation
  | FlipBoard
  | SetShowTimestamps (b : bool)
  | StartVariation (san fen : string)
  | ExtendVariation (san fen : string)
  | UpdateVariationEval (idx evalVal : Z)
  | LoadVariation (sequence : list VariationNode)
  | GoToVariationMove (idx : Z).

Definition perform (a : Action) (st : State) : State :=
  match a with
  | GoToMove index => goToMove index st
  | NextMove => (nextMove st).2
  | PrevMove => (prevMove st).2
  | ExitVariation => exitVariation st
  | FlipBoard => flipBoard st
  | SetShowTimestamps b =>
      mkState (currentMoveIndex st) (orientation st) b (isVariation st)
        (variationMoves st) (variationIndex st) (variationBaseIndex st)
  | StartVariation san fen => startVariation san fen st
  | ExtendVariation san fen => extendVariation san fen st
  | UpdateVariationEval idx evalVal => updateVariationEval idx evalVal st
  | LoadVariation sequence => loadVariation sequence st
  | GoToVariationMove idx => goToVariationMove idx st
  end.

(** The page never loads an empty sequence (it slices an engine line up to
    and including the move clicked). *)
Definition loadsNothing (a : Action) : bool :=
  match a with LoadVariation [] => true | _ => false end.

Definition run (actions : list Action) : State :=
  foldl (λ st a, perform a st) initial actions.

(** The main-line pointer is a ply of the game; in a variation the cursor is
    on a node and the line is anchored where the main line stands. *)
Definition Coherent (st : State) : Prop :=
  0 ≤ currentMoveIndex st ≤ lastIndex ∧
  (isVariation st = true →
   0 ≤ variationIndex st < Z.of_nat (length (variationMoves st)) ∧
   variationBaseIndex st = currentMoveIndex st).

End Hook.

End Nav.

(** ** src/app/result/page.tsx, the helpers that read the review *)

Module Page.

Record Arrow := mkArrow {
  startSquare : string;
  endSquare : string;
  color : string
}.

(** [uciBestArrow]. *)
Definition uciBestArrow (uci : string) : option Arrow :=
  if Str.isEmpty uci || (String.length uci <? 4)%nat then None
  else Some (mkArrow (substring 0 2 uci) (substring 2 2 uci)
               "rgba(79,195,247,0.85)").

(** The move the page replays to place the badge (lines 234-237): source
    square, target square and promotion letter read back from [uci]. *)
Definition uciParts (uci : string) : string * string * option string :=
  (substring 0 2 uci, substring 2 2 uci,
   if (4 <? String.length uci)%nat then Some (substring 4 1 uci) else None).

(** A clock annotation counts when it is neither [null] nor empty. *)
Definition hasClock (m : Types.MoveResult) : bool :=
  match Types.clock m with
  | Some c => negb (Str.isEmpty c)
  | None => false
  end.

(** The loop of [lastClock], about to look at index [n - 1].  The outer
    [None] is the TypeError raised by reading [moves[i].isWhite] where
    [moves[i]] is [undefined]. *)
Fixpoint lastClockFrom (moves : list Types.MoveResult) (isWhite : bool)
    (n : nat) : option (option string) :=
  match n with
  | O => Some None
  | S i =>
      match moves !! i with
      | None => None
      | Some m =>
          if Bool.eqb (Types.isWhite m) isWhite && hasClock m
          then Some (Types.clock m)
          else lastClockFrom moves isWhite i
      end
  end.

Definition lastClock (moves : list Types.MoveResult) (currentIdx : Z)
    (isWhite : bool) : option (option string) :=
  lastClockFrom moves isWhite (Z.to_nat currentIdx).

End Page.

(** ** Text without a given character *)

Module Text.

(** No character of [s] is [c]. *)
Fixpoint free (c : ascii) (s : string) : bool :=
  match s with
  | EmptyString => true
  | String a rest => negb (Ascii.eqb a c) && free c rest
  end.

End Text.

(** ** src/lib/chess-analysis.ts, the two readers of the PGN text

    The regular expressions are written out as the matchers they denote.
    Each of their pieces is a fixed text or a greedy run over a character
    class that excludes the character that must follow, so at a given
    start there is one way to match and backtracking finds no other.  White
    space is the ASCII white space; a tag is read literally, as it is for
    the five tags of letters the program asks for. *)

Module Pgn.

(** [s] with the prefix [p] removed, when [s] starts with [p]. *)
Fixpoint stripPrefix (p s : string) : option string :=
  match p with
  | EmptyString => Some s
  | String a p' =>
      match s with
      | String b s' => if Ascii.eqb a b then stripPrefix p' s' else None
      | EmptyString => None
      end
  end.

(** [\s+]: at least one white space, then all that follow. *)
Definition spaces1 (s : string) : option string :=
  match s with
  | String a _ => if Str.isSpace a then Some (Str.trimStart s) else None
  | EmptyString => None
  end.

(** The longest prefix of characters in a class, and what follows it. *)
Fixpoint span (f : ascii → bool) (s : string) : string * string :=
  match s with
  | EmptyString => (EmptyString, EmptyString)
  | String a rest =>
      if f a then let '(run, after) := span f rest in (String a run, after)
      else (EmptyString, s)
  end.

Definition quote : ascii := ascii_of_nat 34.




(** [[\d:.]]. *)
Definition isClockChar (a : ascii) : bool :=
  let n := nat_of_ascii a in
  ((48 <=? n)%nat && (n <=? 57)%nat) || (n =? 58)%nat || (n =? 46)%nat.

(** [\[%clk\s+([\d:.]+)\]] tried at the start of [s]: the captured text and
    what follows the match. *)
Definition matchClockAt (s : string) : option (string * string) :=
  r1 ← stripPrefix "[%clk" s;
  r2 ← spaces1 r1;
  let '(t, r3) := span isClockChar r2 in
  if Str.isEmpty t then None
  else r4 ← stripPrefix "]" r3; Some (t, r4).

(** Lines 89-91: one leading [0:], else one leading [00:], is dropped. *)
Definition shortenClock (t : string) : string :=
  match stripPrefix "0:" t with
  | Some rest => rest
  | None => match stripPrefix "00:" t with
            | Some rest => rest
            | None => t
            end
  end.

(** The loop over [re.exec(pgn)]: [skip] characters still belong to the
    match just found; after them the search goes on. *)
Fixpoint scanClocks (skip : nat) (s : string) : list string :=
  match s with
  | EmptyString => []
  | String _ rest =>
      match skip with
      | S k => scanClocks k rest
      | O =>
          match matchClockAt s with
          | Some (t, after) =>
              shortenClock t
              :: scanClocks (String.length s - String.length after - 1) rest
          | None => scanClocks 0 rest
          end
      end
  end.

Definition extractClocks (pgn : string) : list string := scanClocks 0 pgn.

(** A header section as it is written: per pair one line made of the tag
    and the quoted value in brackets. *)
Definition headerLine (h : string * string) : string :=
  String "[" (h.1 +:+ String " " (String quote (h.2 +:+ String quote
    (String "]" (String (ascii_of_nat 10) EmptyString))))).

Definition headerSection (hs : list (string * string)) : string :=
  foldr (λ h text, headerLine h +:+ text) EmptyString hs.

(** A clock comment as it is written: [[%clk t]]. *)
Definition clockTag (t : string) : string :=
  "[%clk " +:+ t +:+ "]".

(** Every character of [s] is in the class [f]. *)
Fixpoint allChars (f : ascii → bool) (s : string) : bool :=
  match s with
  | EmptyString => true
  | String a rest => f a && allChars f rest
  end.


End Pgn.

(** ** [analyzeGame] on the PGN text *)

Module Entry.


End Entry.

(** ** A concrete session on the result page *)

Module Tour.

Import Sample.

Definition e4Result : Types.MoveResult :=
  Types.mkMoveResult "e4" "e2e4" fen1 ChessJs.START_FEN 30 0 "Book"
    None (Some "05:00") true 1.
Definition d5Result : Types.MoveResult :=
  Types.mkMoveResult "d5" "d7d5" fen2 fen1 35 5 "Excellent"
    (Some "e7e5") (Some "04:58") false 1.
Definition Qg4Result : Types.MoveResult :=
  Types.mkMoveResult "Qg4" "d1g4" fen3 fen2 (-250) 285 "Blunder"
    (Some "d2d4") None true 2.

Definition data : option (list Types.MoveResult) :=
  Some [e4Result; d5Result; Qg4Result].

(** Two plies forward, a variation of two moves, its evaluation arriving,
    one node back, an engine line loaded over the rest, and out again. *)
Definition actions : list Nav.Action :=
  [ Nav.NextMove; Nav.NextMove;
    Nav.StartVariation "Nf3" fen3; Nav.ExtendVariation "Nc6" fen2;
    Nav.UpdateVariationEval 1 40; Nav.PrevMove;
    Nav.LoadVariation [nodeD; nodeC]; Nav.GoToVariationMove 0;
    Nav.PrevMove; Nav.FlipBoard; Nav.GoToMove 7 ].

(** In a variation of three nodes anchored after the second ply, with the
    cursor on node [cursor]. *)
Definition inVariation (cursor : Z) : Game.State :=
  Game.mkState 2 Game.white false true [nodeA; nodeB; nodeC] cursor 2.

(** On the main line at ply [k]. *)
Definition onMainLine (k : Z) : Game.State :=
  Game.mkState k Game.white false false [] (-1) 0.

Definition headers : list (string * string) :=
  [("Event", "Club game"); ("White", "Alice"); ("WhiteElo", "1500");
   ("Black", "Bob")].

Definition movetext : string :=
  "1. e4 {" +:+ Pgn.clockTag "0:05:00" +:+ "} d5 {"
  +:+ Pgn.clockTag "00:04:58" +:+ "} 2. Qg4".

Definition pgnText : string := Pgn.headerSection headers +:+ movetext.

End Tour.

(** * Properties of the classification pass *)

Section PassFacts.

Import ChessJs Analysis.

Variable legalMoves : string → list Move.
Variable history : list Played.
Variable clocks : list string.
Variable evalResults : list Api.EvalResult.
Variable book : gset string.

Local Abbreviation plyReview := (plyReview legalMoves history clocks evalResults book).
Local Abbreviation loopBody := (loopBody legalMoves history clocks evalResults book).
Local Abbreviation loopFrom := (loopFrom legalMoves history clocks evalResults book).
Local Abbreviation pass := (pass legalMoves history clocks evalResults book).
Local Abbreviation punishmentAt := (punishmentAt history evalResults).
Local Abbreviation sacrificeTest := (sacrificeTest legalMoves).

Lemma classifyMove_not_Book c s p : classifyMove c s p ≠ Book.
Proof.
  unfold classifyMove.
  repeat match goal with |- context [if ?b then _ else _] => destruct b end;
    discriminate.
Qed.

(** Everything one turn of the loop reads and writes. *)
Lemma plyReview_inv i ib r ib' :
  plyReview i ib = Some (r, ib') →
  ∃ pl res evalBefore evalAfter pun,
    history !! i = Some pl ∧
    evalResults !! i = Some res ∧
    evaluations evalResults !! i = Some evalBefore ∧
    evaluations evalResults !! (i + 1)%nat = Some evalAfter ∧
    fens history !! i = Some (fenBefore r) ∧
    fens history !! (i + 1)%nat = Some (fen r) ∧
    isWhite r = bool_decide (color (move pl) = White) ∧
    punishmentAt i (rawCpLoss (isWhite r) evalBefore evalAfter) = Some pun ∧
    evaluation r = evalAfter ∧
    bestMoveUci r =
      (if needsBestMove (classification r) then Api.bestMove res else None) ∧
    ((ib = true ∧ OpeningBook.isBookPosition (fen r) book = true ∧
      classification r = Book ∧ cpLoss r = 0 ∧ ib' = true)
     ∨
     ((ib = false ∨ OpeningBook.isBookPosition (fen r) book = false) ∧
      cpLoss r = rawCpLoss (isWhite r) evalBefore evalAfter ∧
      classification r =
        classifyMove (cpLoss r)
          (sacrificeTest (fenBefore r) (fen r) (isWhite r)) pun ∧
      ib' = false)).
Proof.
  unfold Analysis.plyReview. intros H.
  destruct (history !! i) as [pl|] eqn:Hpl; simpl in H; [|discriminate].
  destruct (evaluations evalResults !! i) as [eb|] eqn:Heb; simpl in H; [|discriminate].
  destruct (evaluations evalResults !! (i + 1)%nat) as [ea|] eqn:Hea; simpl in H; [|discriminate].
  destruct (fens history !! i) as [fb|] eqn:Hfb; simpl in H; [|discriminate].
  destruct (fens history !! (i + 1)%nat) as [fa|] eqn:Hfa; simpl in H; [|discriminate].
  destruct (evalResults !! i) as [res|] eqn:Hres; simpl in H; [|discriminate].
  destruct (Analysis.punishmentAt _ _ _ _) as [pun|] eqn:Hpun; simpl in H; [|discriminate].
  exists pl, res, eb, ea, pun.
  destruct ib; simpl in H;
    [destruct (OpeningBook.isBookPosition fa book) eqn:Hbk|];
    injection H as <- <-; simpl; repeat (split; [by auto|]).
  - left. by auto.
  - right. by auto.
  - right. by auto.
Qed.

(** The loop pushes exactly the reviews of a chain. *)
Lemma loopFrom_chain n i st st' :
  loopFrom n i st = Some st' →
  ∃ rs, reviews st' = reviews st ++ rs ∧
        length rs = n ∧
        totalCpLoss st' = totalCpLoss st + sumCpLoss rs ∧
        PlyChain legalMoves history clocks evalResults book
          i (inBook st) rs (inBook st').
Proof.
  revert i st. induction n as [|n IH]; intros i st H; simpl in H.
  - injection H as <-. exists []. rewrite app_nil_r. simpl.
    repeat split; [lia | constructor].
  - unfold Analysis.loopBody in H.
    destruct (plyReview i (inBook st)) as [[r ib']|] eqn:Hply;
      simpl in H; [|discriminate].
    apply IH in H as (rs & Hrs & Hlen & Hsum & Hchain). simpl in *.
    exists (r :: rs). rewrite Hrs, <- app_assoc. simpl.
    repeat split; [lia | lia | econstructor; eauto].
Qed.

Lemma chain_lookup i ib rs ib'' j r :
  PlyChain legalMoves history clocks evalResults book i ib rs ib'' →
  rs !! j = Some r →
  ∃ ibj ibj', plyReview (i + j) ibj = Some (r, ibj') ∧
              PlyChain legalMoves history clocks evalResults book
                (S (i + j)) ibj' (drop (S j) rs) ib''.
Proof.
  intros Hc. revert j. induction Hc as [|i ib r0 ib' rs ib'' Hp Hc IH]; intros j Hj.
  - discriminate.
  - destruct j as [|j]; simpl in Hj.
    + injection Hj as ->. exists ib, ib'. rewrite Nat.add_0_r. by auto.
    + destruct (IH _ Hj) as (a & b & Ha & Hb).
      exists a, b. replace (i + S j)%nat with (S i + j)%nat by lia. by auto.
Qed.

(** Once the flag is down, nothing pushed later is a book move. *)
Lemma chain_off_book i rs ib'' r :
  PlyChain legalMoves history clocks evalResults book i false rs ib'' →
  r ∈ rs → classification r ≠ Book.
Proof.
  intros Hc. remember false as ib eqn:Hib. revert Hib.
  induction Hc as [|i ib r0 ib' rs ib'' Hp Hc IH]; intros -> Hin.
  - by apply elem_of_nil in Hin.
  - apply plyReview_inv in Hp
      as (? & ? & ? & ? & ? & _ & _ & _ & _ & _ & _ & _ & _ & _ & _ & Hcase).
    destruct Hcase as [(? & _)|(_ & _ & Hcl & ->)]; [discriminate|].
    apply elem_of_cons in Hin as [->|Hin]; [|by auto].
    rewrite Hcl. apply classifyMove_not_Book.
Qed.

Lemma punishmentAt_total i c :
  (i < length history)%nat →
  length evalResults = S (length history) →
  is_Some (punishmentAt i c).
Proof.
  intros Hi Hlen. destruct i as [|j]; simpl; [by eauto|].
  destruct (lookup_lt_is_Some_2 history j) as [pl Hpl]; [lia|].
  destruct (lookup_lt_is_Some_2 (evaluations evalResults) j) as [a Ha];
    [unfold evaluations; rewrite length_fmap; lia|].
  destruct (lookup_lt_is_Some_2 (evaluations evalResults) (S j)) as [b Hb];
    [unfold evaluations; rewrite length_fmap; lia|].
  rewrite Hpl, Ha, Hb. simpl. by eauto.
Qed.

(** No turn of the loop reads outside an array. *)
Lemma plyReview_total i ib :
  (i < length history)%nat →
  length evalResults = S (length history) →
  is_Some (plyReview i ib).
Proof.
  intros Hi Hlen. unfold Analysis.plyReview.
  destruct (lookup_lt_is_Some_2 history i) as [pl Hpl]; [lia|].
  destruct (lookup_lt_is_Some_2 (evaluations evalResults) i) as [a Ha];
    [unfold evaluations; rewrite length_fmap; lia|].
  destruct (lookup_lt_is_Some_2 (evaluations evalResults) (i + 1)) as [b Hb];
    [unfold evaluations; rewrite length_fmap; lia|].
  destruct (lookup_lt_is_Some_2 (fens history) i) as [fb Hfb];
    [unfold fens; simpl; rewrite length_fmap; lia|].
  destruct (lookup_lt_is_Some_2 (fens history) (i + 1)) as [fa Hfa];
    [unfold fens; simpl; rewrite length_fmap; lia|].
  destruct (lookup_lt_is_Some_2 evalResults i) as [res Hres]; [lia|].
  rewrite Hpl, Ha, Hb, Hfb, Hfa, Hres. simpl.
  destruct (punishmentAt_total i
              (rawCpLoss (bool_decide (color (move pl) = White)) a b) Hi Hlen)
    as [pun ->].
  simpl. destruct (ib && _); simpl; by eauto.
Qed.

Lemma loopFrom_total n i st :
  (i + n = length history)%nat →
  length evalResults = S (length history) →
  is_Some (loopFrom n i st).
Proof.
  revert i st. induction n as [|n IH]; intros i st Hn Hlen; simpl; [by eauto|].
  unfold Analysis.loopBody.
  destruct (plyReview_total i (inBook st)) as [[r ib'] ->]; [lia|done|].
  simpl. apply IH; [lia|done].
Qed.

(** With one evaluation per position the pass runs to its end. *)
Lemma pass_total :
  length evalResults = S (length history) → is_Some pass.
Proof. intros Hlen. apply loopFrom_total; [done|done]. Qed.

(** The pass as a chain from ply 0. *)
Lemma pass_chain st :
  pass = Some st →
  length (reviews st) = length history ∧
  totalCpLoss st = sumCpLoss (reviews st) ∧
  PlyChain legalMoves history clocks evalResults book
    0 true (reviews st) (inBook st).
Proof.
  intros H. apply loopFrom_chain in H as (rs & Hrs & Hlen & Hsum & Hc).
  simpl in *. rewrite Hrs. repeat split; [done|lia|done].
Qed.

Lemma pass_lookup st i r :
  pass = Some st → reviews st !! i = Some r →
  ∃ ib ib', plyReview i ib = Some (r, ib') ∧
            PlyChain legalMoves history clocks evalResults book
              (S i) ib' (drop (S i) (reviews st)) (inBook st).
Proof.
  intros H Hi. apply pass_chain in H as (_ & _ & Hc).
  by apply (chain_lookup _ _ _ _ _ _ Hc) in Hi.
Qed.

End PassFacts.

(** * Properties of a whole review *)

Section ReviewFacts.

Import ChessJs Analysis.

Variable legalMoves : string → list Move.
Variable evaluatePosition : nat → string → nat → option Api.EvalResult.
Variable fetchText : string → option string.
Variable replayLine : string → list string.

Lemma gather_length history depth ers :
  gatherEvaluations evaluatePosition history depth = Some ers → length ers = S (length history).
Proof.
  intros H. apply length_mapM in H. rewrite length_imap in H.
  unfold fens in H. simpl in H. rewrite length_fmap in H. lia.
Qed.

(** Index-aligned gathering: the [i]-th result answers the request made
    for the [i]-th FEN. *)
Lemma gather_lookup history depth ers i res :
  gatherEvaluations evaluatePosition history depth = Some ers → ers !! i = Some res →
  ∃ fen, fens history !! i = Some fen ∧
         evaluatePosition i fen depth = Some res.
Proof.
  intros H Hi. apply mapM_Some in H.
  destruct (Forall2_lookup_r _ _ _ _ _ H Hi) as ([j f] & Hl & Hf).
  rewrite list_lookup_imap in Hl.
  destruct (fens history !! i) as [fen|] eqn:Hfen; simpl in Hl; [|discriminate].
  injection Hl as <- <-. by eauto.
Qed.

Lemma analyze_inv pgn depth cache resp :
  (analyzeGame legalMoves evaluatePosition fetchText replayLine
     pgn depth cache).1 = Some resp →
  ∃ ers book st,
    gatherEvaluations evaluatePosition (pgnHistory pgn) depth = Some ers ∧
    (OpeningBook.getOpeningBook fetchText replayLine cache).1 = Some book ∧
    pass legalMoves (pgnHistory pgn) (pgnClocks pgn) ers book = Some st ∧
    resp = respond pgn st.
Proof.
  unfold analyzeGame.
  destruct (gatherEvaluations _ _ _) as [ers|]; [|discriminate].
  destruct (OpeningBook.getOpeningBook fetchText replayLine cache) as [[book|] c']; simpl; [|discriminate].
  destruct (pass _ _ _ _ _) as [st|] eqn:Hp; simpl; [|discriminate].
  intros [= <-]. by eauto 10.
Qed.

(** The review resolves as soon as every evaluation and the book do. *)
Lemma analyze_resolves pgn depth cache ers book :
  gatherEvaluations evaluatePosition (pgnHistory pgn) depth = Some ers →
  (OpeningBook.getOpeningBook fetchText replayLine cache).1 = Some book →
  is_Some (analyzeGame legalMoves evaluatePosition fetchText replayLine
     pgn depth cache).1.
Proof.
  intros Hg Hb. unfold analyzeGame. rewrite Hg.
  destruct (OpeningBook.getOpeningBook fetchText replayLine cache) as [loaded c']. simpl in Hb. subst loaded.
  destruct (pass_total legalMoves (pgnHistory pgn) (pgnClocks pgn) ers book)
    as [st ->]; [by eapply gather_length|].
  simpl. by eauto.
Qed.

(** Every review of the response is the outcome of its turn of the
    loop. *)
Lemma analyze_lookup pgn depth cache resp i r :
  (analyzeGame legalMoves evaluatePosition fetchText replayLine
     pgn depth cache).1 = Some resp →
  moves resp !! i = Some r →
  ∃ ers book ib ib',
    gatherEvaluations evaluatePosition (pgnHistory pgn) depth = Some ers ∧
    (OpeningBook.getOpeningBook fetchText replayLine cache).1 = Some book ∧
    plyReview legalMoves (pgnHistory pgn) (pgnClocks pgn) ers book i ib
      = Some (r, ib') ∧
    ∀ r', r' ∈ drop (S i) (moves resp) → ib' = false →
          classification r' ≠ Book.
Proof.
  intros H Hi. apply analyze_inv in H as (ers & book & st & Hg & Hb & Hp & ->).
  simpl in Hi.
  destruct (pass_lookup _ _ _ _ _ _ _ _ Hp Hi) as (ib & ib' & Hply & Hc).
  exists ers, book, ib, ib'. repeat split; [done..|].
  intros r' Hin ->. simpl in Hin. by eapply chain_off_book.
Qed.

(** [classifyMove] reads the threshold table from the top. *)
Lemma classifyMove_table c sac pun :
  classifyMove c sac pun = firstMatch (thresholdTable c sac pun).
Proof.
  unfold classifyMove, firstMatch, thresholdTable.
  destruct sac, pun, (c <=? 15), (c <=? 30), (c =? 0),
    (c <=? 60), (c <=? 120), (c <=? 250); reflexivity.
Qed.

Lemma sumCpLoss_without_book rs :
  (∀ r, r ∈ rs → classification r = Book → cpLoss r = 0) →
  sumCpLoss rs = sumCpLoss (filter (λ r, classification r ≠ Book) rs).
Proof.
  induction rs as [|r rs IH]; intros H; [done|].
  rewrite filter_cons. simpl.
  rewrite IH by (intros; apply H; [by right|done]).
  destruct (decide (classification r ≠ Book)) as [Hn|Hn]; simpl; [done|].
  rewrite (H r); [lia|by left|].
  by destruct (decide (classification r = Book)).
Qed.

(** C7. Every review classified [Book] reports [cpLoss = 0], whatever the
    game and whatever the evaluator answered; the score is therefore the
    one of the losses of the other moves alone. *)
Theorem book_review_reports_zero_loss pgn depth cache resp :
  (analyzeGame legalMoves evaluatePosition fetchText replayLine
     pgn depth cache).1 = Some resp →
  (∀ r, r ∈ moves resp → classification r = Book → cpLoss r = 0) ∧
  accuracy resp =
    accuracyOf
      (sumCpLoss (filter (λ r, classification r ≠ Book) (moves resp)))
      (length (moves resp)).
Proof.
  intros H.
  assert (Hbook : ∀ r, r ∈ moves resp → classification r = Book → cpLoss r = 0).
  { intros r Hin Hcl. apply list_elem_of_lookup in Hin as [i Hi].
    destruct (analyze_lookup _ _ _ _ _ _ H Hi)
      as (ers & book & ib & ib' & _ & _ & Hply & _).
    apply plyReview_inv in Hply
      as (? & ? & ? & ? & ? & _ & _ & _ & _ & _ & _ & _ & _ & _ & _ & Hcase).
    destruct Hcase as [(_ & _ & _ & Hz & _)|(_ & _ & Hc & _)]; [done|].
    rewrite Hcl in Hc. symmetry in Hc. by apply classifyMove_not_Book in Hc. }
  split; [done|].
  apply analyze_inv in H as (ers & book & st & _ & _ & Hp & ->).
  apply pass_chain in Hp as (_ & Hsum & _). simpl in *.
  by rewrite Hsum, <- sumCpLoss_without_book.
Qed.

(** C8. Book status is monotone: once the position a ply reaches is not
    found in the book (or the ply is not classified [Book]), no later ply
    of the game is classified [Book]. *)
Theorem book_status_never_resumes pgn depth cache resp book i j ri rj :
  (analyzeGame legalMoves evaluatePosition fetchText replayLine
     pgn depth cache).1 = Some resp →
  (OpeningBook.getOpeningBook fetchText replayLine cache).1 = Some book →
  (i < j)%nat →
  moves resp !! i = Some ri →
  moves resp !! j = Some rj →
  OpeningBook.isBookPosition (fen ri) book = false
    ∨ classification ri ≠ Book →
  classification rj ≠ Book.
Proof.
  intros H Hb Hij Hi Hj Hoff.
  destruct (analyze_lookup _ _ _ _ _ _ H Hi)
    as (ers & book' & ib & ib' & _ & Hb' & Hply & Hlater).
  assert (book' = book) as -> by congruence.
  apply Hlater.
  - apply list_elem_of_lookup. exists (j - S i)%nat.
    rewrite lookup_drop. by replace (S i + (j - S i))%nat with j by lia.
  - apply plyReview_inv in Hply
      as (? & ? & ? & ? & ? & _ & _ & _ & _ & _ & _ & _ & _ & _ & _ & Hcase).
    destruct Hcase as [(_ & Hin & Hcl & _)|(_ & _ & _ & ->)]; [|done].
    destruct Hoff as [Hoff|Hoff]; congruence.
Qed.

(** C5. For every ply that is not a book move, [cpLoss] is
    [max(0, evalBefore - evalAfter)] when White moved and
    [max(0, evalAfter - evalBefore)] when Black moved, with the two
    evaluations those of the positions before and after the move, and the
    class is the first matching row of the threshold table under the
    ply's sacrifice and punishment flags. *)
Theorem non_book_ply_follows_table pgn depth cache resp i r :
  (analyzeGame legalMoves evaluatePosition fetchText replayLine
     pgn depth cache).1 = Some resp →
  moves resp !! i = Some r →
  classification r ≠ Book →
  ∃ ers played before after_ pun,
    gatherEvaluations evaluatePosition (pgnHistory pgn) depth = Some ers ∧
    pgnHistory pgn !! i = Some played ∧
    isWhite r = bool_decide (color (move played) = White) ∧
    evaluatePosition i (fenBefore r) depth = Some before ∧
    evaluatePosition (S i) (fen r) depth = Some after_ ∧
    cpLoss r =
      (if isWhite r
       then Z.max 0 (Api.evaluation before - Api.evaluation after_)
       else Z.max 0 (Api.evaluation after_ - Api.evaluation before)) ∧
    punishmentAt (pgnHistory pgn) ers i (cpLoss r) = Some pun ∧
    classification r =
      firstMatch
        (thresholdTable (cpLoss r)
           (sacrificeTest legalMoves (fenBefore r) (fen r) (isWhite r)) pun).
Proof.
  intros H Hi Hnb.
  destruct (analyze_lookup _ _ _ _ _ _ H Hi)
    as (ers & book & ib & ib' & Hg & _ & Hply & _).
  apply plyReview_inv in Hply
    as (pl & res & eb & ea & pun & Hpl & Hres & Heb & Hea & Hfb & Hfa
        & Hw & Hpun & _ & _ & Hcase).
  destruct Hcase as [(_ & _ & Hcl & _)|(_ & Hloss & Hcl & _)]; [done|].
  unfold evaluations in Heb, Hea. rewrite list_lookup_fmap in Heb, Hea.
  destruct (ers !! (i + 1)%nat) as [resA|] eqn:HresA; [|discriminate].
  rewrite Hres in Heb. simpl in Heb, Hea.
  injection Heb as <-. injection Hea as <-.
  destruct (gather_lookup _ _ _ _ _ Hg Hres) as (f1 & Hf1 & He1).
  destruct (gather_lookup _ _ _ _ _ Hg HresA) as (f2 & Hf2 & He2).
  rewrite Hfb in Hf1. injection Hf1 as <-.
  rewrite Hfa in Hf2. injection Hf2 as <-.
  replace (i + 1)%nat with (S i) in He2 by lia.
  exists ers, pl, res, resA, pun.
  rewrite <- classifyMove_table, <- Hloss in *.
  repeat split; done.
Qed.

Lemma rawLossAt_intro history ers i pl eb ea :
  history !! i = Some pl →
  evaluations ers !! i = Some eb →
  evaluations ers !! (i + 1)%nat = Some ea →
  rawLossAt history ers i
  = Some (rawCpLoss (bool_decide (color (move pl) = White)) eb ea).
Proof. intros Hpl Heb Hea. unfold rawLossAt. by rewrite Hpl, Heb, Hea. Qed.

(** C3, as the code has it. For every ply after the first, the punishment
    flag is true exactly when the loss of the previous ply, recomputed
    from the evaluation trace and not forced to 0 for a book move, is at
    least 120 and the loss of the current ply before the book check is at
    most 15.  The recomputed loss is the one recorded in the previous
    review unless that review is a book move, which records 0. *)
Theorem punishment_recomputes_previous_loss pgn depth cache resp i cur :
  (analyzeGame legalMoves evaluatePosition fetchText replayLine
     pgn depth cache).1 = Some resp →
  moves resp !! S i = Some cur →
  ∃ ers prev rawPrev raw pun,
    gatherEvaluations evaluatePosition (pgnHistory pgn) depth = Some ers ∧
    moves resp !! i = Some prev ∧
    rawLossAt (pgnHistory pgn) ers i = Some rawPrev ∧
    rawLossAt (pgnHistory pgn) ers (S i) = Some raw ∧
    punishmentAt (pgnHistory pgn) ers (S i) raw = Some pun ∧
    (pun = true ↔ 120 ≤ rawPrev ∧ raw ≤ 15) ∧
    (classification prev ≠ Book → cpLoss prev = rawPrev) ∧
    (classification prev = Book → cpLoss prev = 0) ∧
    (classification cur ≠ Book →
     cpLoss cur = raw ∧
     classification cur =
       classifyMove raw
         (sacrificeTest legalMoves (fenBefore cur) (fen cur) (isWhite cur))
         pun).
Proof.
  intros H Hcur.
  destruct (lookup_lt_is_Some_2 (moves resp) i) as [prev Hprev].
  { apply lookup_lt_Some in Hcur. lia. }
  destruct (analyze_lookup _ _ _ _ _ _ H Hcur)
    as (ers & book & ib & ib' & Hg & Hb & Hply & _).
  destruct (analyze_lookup _ _ _ _ _ _ H Hprev)
    as (ers0 & book0 & ib0 & ib0' & Hg0 & Hb0 & Hply0 & _).
  assert (ers0 = ers) as -> by congruence.
  apply plyReview_inv in Hply
    as (pl & res & eb & ea & pun & Hpl & _ & Heb & Hea & _ & _
        & Hw & Hpun & _ & _ & Hcase).
  apply plyReview_inv in Hply0
    as (pl0 & res0 & eb0 & ea0 & pun0 & Hpl0 & _ & Heb0 & Hea0 & _ & _
        & Hw0 & _ & _ & _ & Hcase0).
  exists ers, prev, (rawCpLoss (isWhite prev) eb0 ea0),
    (rawCpLoss (isWhite cur) eb ea), pun.
  split; [done|]. split; [done|].
  split; [rewrite Hw0; by apply rawLossAt_intro|].
  split; [rewrite Hw; by apply rawLossAt_intro|].
  split; [done|].
  split.
  - simpl in Hpun. rewrite Hpl0 in Hpun. simpl in Hpun.
    rewrite Heb0 in Hpun. simpl in Hpun.
    replace (i + 1)%nat with (S i) in Hea0 by lia.
    rewrite Hea0 in Hpun. simpl in Hpun. injection Hpun as <-.
    rewrite Hw0. unfold rawCpLoss.
    rewrite andb_true_iff, Z.leb_le, Z.leb_le. done.
  - split; [|split].
    + intros Hnb. destruct Hcase0 as [(_ & _ & Hcl & _)|(_ & Hl & _)]; done.
    + intros Hbk. destruct Hcase0 as [(_ & _ & _ & Hz & _)|(_ & _ & Hcl & _)];
        [done|].
      rewrite Hbk in Hcl. symmetry in Hcl.
      by apply classifyMove_not_Book in Hcl.
    + intros Hnb. destruct Hcase as [(_ & _ & Hcl & _)|(_ & Hl & Hcl & _)];
        [done|].
      split; [done|]. by rewrite <- Hl.
Qed.

(** C4, as the code has it. [bestMoveUci] is non-null exactly when the
    class is one of Inaccuracy, Mistake, Miss, Blunder, Excellent, Good
    and the evaluator reported a best move for the position before the
    move; when present it is that best move. *)
Theorem best_move_attached_when_reported pgn depth cache resp i r :
  (analyzeGame legalMoves evaluatePosition fetchText replayLine
     pgn depth cache).1 = Some resp →
  moves resp !! i = Some r →
  ∃ res,
    evaluatePosition i (fenBefore r) depth = Some res ∧
    (bestMoveUci r ≠ None
     ↔ classification r ∈ [Inaccuracy; Mistake; Miss; Blunder; Excellent; Good]
       ∧ Api.bestMove res ≠ None) ∧
    (∀ u, bestMoveUci r = Some u → Api.bestMove res = Some u).
Proof.
  intros H Hi.
  destruct (analyze_lookup _ _ _ _ _ _ H Hi)
    as (ers & book & ib & ib' & Hg & _ & Hply & _).
  apply plyReview_inv in Hply
    as (pl & res & eb & ea & pun & _ & Hres & _ & _ & Hfb & _
        & _ & _ & _ & Hbest & _).
  destruct (gather_lookup _ _ _ _ _ Hg Hres) as (f & Hf & He).
  rewrite Hfb in Hf. injection Hf as <-.
  exists res. split; [done|]. rewrite Hbest. unfold needsBestMove.
  case_bool_decide as Hc; split.
  - split; [by auto|]. by intros [_ ?].
  - by intros u.
  - split; [done|]. by intros [? _].
  - by intros u.
Qed.

Lemma accuracyOf_formula t n :
  n ≠ 0%nat →
  accuracyOf t n
  = Qmax 0 (100 - inject_Z t / inject_Z (Z.of_nat n) / 10)%Q.
Proof. intros Hn. unfold accuracyOf. by destruct (decide (n = 0%nat)). Qed.

Lemma accuracyOf_no_moves t : (accuracyOf t 0 == 100)%Q.
Proof. reflexivity. Qed.

Lemma accuracyOf_range t n :
  0 ≤ t → (0 <= accuracyOf t n)%Q ∧ (accuracyOf t n <= 100)%Q.
Proof.
  intros Ht. unfold accuracyOf. split; [apply Q.le_max_l|].
  apply Q.max_lub; [discriminate|].
  destruct (decide (n = 0%nat)) as [->|Hn]; [discriminate|].
  assert (Havg : (0 <= inject_Z t / inject_Z (Z.of_nat n) / 10)%Q).
  { apply Qle_shift_div_l; [reflexivity|]. rewrite Qmult_0_l.
    apply Qle_shift_div_l.
    - change 0%Q with (inject_Z 0). rewrite <- Zlt_Qlt. lia.
    - rewrite Qmult_0_l. change 0%Q with (inject_Z 0). by rewrite <- Zle_Qle. }
  apply (Qplus_le_r _ _ (inject_Z t / inject_Z (Z.of_nat n) / 10 - 100)%Q).
  ring_simplify. exact Havg.
Qed.

Lemma accuracyOf_zero_total n : (accuracyOf 0 n == 100)%Q.
Proof.
  unfold accuracyOf. destruct (decide (n = 0%nat)); [reflexivity|].
  assert (H0 : (inject_Z 0 / inject_Z (Z.of_nat n) / 10 == 0)%Q).
  { unfold Qdiv. by rewrite !Qmult_0_l. }
  assert (H1 : (100 - inject_Z 0 / inject_Z (Z.of_nat n) / 10 == 100)%Q).
  { rewrite H0. reflexivity. }
  rewrite Q.max_r; [exact H1|]. rewrite H1. discriminate.
Qed.

Lemma sumCpLoss_nonneg rs :
  (∀ r, r ∈ rs → 0 ≤ cpLoss r) → 0 ≤ sumCpLoss rs.
Proof.
  induction rs as [|r rs IH]; intros H; simpl; [lia|].
  assert (0 ≤ cpLoss r) by (apply H; by left).
  assert (0 ≤ sumCpLoss rs) by (apply IH; intros; apply H; by right).
  lia.
Qed.

Lemma sumCpLoss_all_zero rs :
  (∀ r, r ∈ rs → cpLoss r = 0) → sumCpLoss rs = 0.
Proof.
  induction rs as [|r rs IH]; intros H; simpl; [done|].
  rewrite (H r) by (by left). rewrite IH; [done|].
  intros; apply H; by right.
Qed.

(** C6. The score is [max(0, 100 - (sum of cpLoss / move count) / 10)];
    it is exactly 100 for a game without moves and for a game whose every
    cpLoss is 0, and it lies in [0, 100]: for the losses of a review,
    which are never negative, and for any non-negative total. *)
Theorem accuracy_is_linear_in_average_loss pgn depth cache resp :
  (analyzeGame legalMoves evaluatePosition fetchText replayLine
     pgn depth cache).1 = Some resp →
  let total := sumCpLoss (moves resp) in
  let count := length (moves resp) in
  accuracy resp = accuracyOf total count ∧
  (count ≠ 0%nat →
   accuracy resp
   = Qmax 0 (100 - inject_Z total / inject_Z (Z.of_nat count) / 10)%Q) ∧
  (count = 0%nat → (accuracy resp == 100)%Q) ∧
  (∀ r, r ∈ moves resp → 0 ≤ cpLoss r) ∧
  ((0 <= accuracy resp)%Q ∧ (accuracy resp <= 100)%Q) ∧
  ((∀ r, r ∈ moves resp → cpLoss r = 0) → (accuracy resp == 100)%Q) ∧
  (∀ t n, 0 ≤ t → (0 <= accuracyOf t n)%Q ∧ (accuracyOf t n <= 100)%Q) ∧
  (∀ n, (accuracyOf 0 n == 100)%Q).
Proof.
  intros H total count.
  assert (Hnn : ∀ r, r ∈ moves resp → 0 ≤ cpLoss r).
  { intros r Hin. apply list_elem_of_lookup in Hin as [i Hi].
    destruct (analyze_lookup _ _ _ _ _ _ H Hi)
      as (ers & book & ib & ib' & _ & _ & Hply & _).
    apply plyReview_inv in Hply
      as (? & ? & ? & ? & ? & _ & _ & _ & _ & _ & _ & _ & _ & _ & _ & Hcase).
    destruct Hcase as [(_ & _ & _ & -> & _)|(_ & -> & _)]; [done|].
    unfold rawCpLoss. destruct (isWhite r); lia. }
  assert (Hacc : accuracy resp = accuracyOf total count).
  { apply analyze_inv in H as (ers & book & st & _ & _ & Hp & ->).
    apply pass_chain in Hp as (_ & Hsum & _). subst total count. simpl.
    by rewrite Hsum. }
  rewrite Hacc.
  split; [done|]. split; [apply accuracyOf_formula|].
  split; [intros ->; apply accuracyOf_no_moves|].
  split; [done|].
  split; [apply accuracyOf_range, sumCpLoss_nonneg, Hnn|].
  split.
  - intros Hz. subst total. rewrite sumCpLoss_all_zero by done.
    apply accuracyOf_zero_total.
  - split; [apply accuracyOf_range|apply accuracyOf_zero_total].
Qed.

(** *** The opening book inside a review *)

Local Abbreviation loadBook := (OpeningBook.loadBook fetchText replayLine).

(** The load resolves exactly when every partition is fetched. *)
Lemma loadBook_resolves_iff :
  is_Some loadBook ↔ ∀ f, f ∈ OpeningBook.files → is_Some (fetchText f).
Proof.
  unfold OpeningBook.loadBook. split.
  - intros [b Hb] f Hin.
    destruct (mapM fetchText OpeningBook.files) as [texts|] eqn:Hm;
      [|discriminate].
    apply mapM_Some in Hm. apply list_elem_of_lookup in Hin as [i Hi].
    destruct (Forall2_lookup_l _ _ _ _ _ Hm Hi) as (text & _ & Hfetch).
    by eauto.
  - intros H.
    assert (Hs : is_Some (mapM fetchText OpeningBook.files)).
    { apply mapM_is_Some, Forall_forall. intros f Hin. by apply H. }
    destruct Hs as [texts ->]. simpl. by eauto.
Qed.

(** A resolved load holds the positions of all partitions, no others. *)
Lemma loadBook_positions book key :
  loadBook = Some book →
  key ∈ book ↔
    ∃ f text, f ∈ OpeningBook.files ∧ fetchText f = Some text ∧
              key ∈ OpeningBook.partitionPositions replayLine text.
Proof.
  unfold OpeningBook.loadBook.
  destruct (mapM fetchText OpeningBook.files) as [texts|] eqn:Hm;
    simpl; [|discriminate].
  intros [= <-]. apply mapM_Some in Hm.
  rewrite elem_of_list_to_set, list_elem_of_bind. split.
  - intros (text & Hkey & Hin). apply list_elem_of_lookup in Hin as [i Hi].
    destruct (Forall2_lookup_r _ _ _ _ _ Hm Hi) as (f & Hf & Hfetch).
    exists f, text. repeat split; [|done..].
    apply list_elem_of_lookup. by eauto.
  - intros (f & text & Hin & Hfetch & Hkey).
    apply list_elem_of_lookup in Hin as [i Hi].
    destruct (Forall2_lookup_l _ _ _ _ _ Hm Hi) as (text' & Ht & Hfetch').
    assert (text' = text) as -> by congruence.
    exists text. split; [done|]. apply list_elem_of_lookup. by eauto.
Qed.

Lemma cold_cache_loads :
  (OpeningBook.getOpeningBook fetchText replayLine
     OpeningBook.emptyCache).1 = loadBook.
Proof. reflexivity. Qed.

(** With an empty book no position is a book position. *)
Lemma empty_book_has_no_book_move pgn depth cache resp r :
  (analyzeGame legalMoves evaluatePosition fetchText replayLine
     pgn depth cache).1 = Some resp →
  (OpeningBook.getOpeningBook fetchText replayLine cache).1 = Some ∅ →
  r ∈ moves resp → classification r ≠ Book.
Proof.
  intros H Hb Hin. apply list_elem_of_lookup in Hin as [i Hi].
  destruct (analyze_lookup _ _ _ _ _ _ H Hi)
    as (ers & book & ib & ib' & _ & Hb' & Hply & _).
  assert (book = ∅) as -> by congruence.
  apply plyReview_inv in Hply
    as (? & ? & ? & ? & ? & _ & _ & _ & _ & _ & _ & _ & _ & _ & _ & Hcase).
  destruct Hcase as [(_ & Hbk & _)|(_ & _ & -> & _)].
  - unfold OpeningBook.isBookPosition in Hbk.
    apply bool_decide_eq_true in Hbk. by apply not_elem_of_empty in Hbk.
  - apply classifyMove_not_Book.
Qed.

(** C2, as the code has it. The book load completes exactly when the
    fetch of every partition resolves, and then holds the positions of
    all partitions; a partition whose fetch rejects makes the whole load,
    and the review that awaits it, reject.  A load that yields no
    position at all is not reported: the review goes on and classifies no
    move as [Book]. *)
Theorem book_load_is_all_or_nothing pgn depth :
  (is_Some loadBook ↔ ∀ f, f ∈ OpeningBook.files → is_Some (fetchText f)) ∧
  (∀ book key,
     loadBook = Some book →
     key ∈ book ↔
       ∃ f text, f ∈ OpeningBook.files ∧ fetchText f = Some text ∧
                 key ∈ OpeningBook.partitionPositions replayLine text) ∧
  ((∃ f, f ∈ OpeningBook.files ∧ fetchText f = None) →
   loadBook = None ∧ (analyzeGame legalMoves evaluatePosition fetchText replayLine
     pgn depth OpeningBook.emptyCache).1 = None) ∧
  (loadBook = Some ∅ →
   is_Some (gatherEvaluations evaluatePosition (pgnHistory pgn) depth) →
   ∃ resp, (analyzeGame legalMoves evaluatePosition fetchText replayLine
     pgn depth OpeningBook.emptyCache).1 = Some resp ∧
           length (moves resp) = length (pgnHistory pgn) ∧
           ∀ r, r ∈ moves resp → classification r ≠ Book).
Proof.
  split; [apply loadBook_resolves_iff|].
  split; [apply loadBook_positions|].
  split.
  - intros (f & Hin & Hnone).
    assert (Hload : loadBook = None).
    { destruct loadBook as [b|] eqn:Hl; [|done].
      assert (Hs : is_Some loadBook) by (rewrite Hl; eauto).
      rewrite loadBook_resolves_iff in Hs.
      destruct (Hs f Hin) as [? ?]. congruence. }
    split; [done|]. unfold analyzeGame.
    destruct (gatherEvaluations _ _ _); [|done].
    simpl. unfold OpeningBook.getOpeningBook. simpl. by rewrite Hload.
  - intros Hload [ers Hg].
    destruct (analyze_resolves pgn depth OpeningBook.emptyCache ers ∅ Hg)
      as [resp Hresp]; [by rewrite cold_cache_loads|].
    exists resp. split; [done|]. split.
    + apply analyze_inv in Hresp as (? & ? & st & _ & _ & Hp & ->).
      by apply pass_chain in Hp as (? & _).
    + intros r Hin. eapply empty_book_has_no_book_move; [done| |done].
      by rewrite cold_cache_loads.
Qed.

End ReviewFacts.

(** * The sacrifice test *)

Section SacrificeFacts.

Import ChessJs Analysis.

Variable legalMoves : string → list Move.

(** A capturing reply takes a piece of the side that has just moved, or,
    en passant, lands on an empty square.  On such replies the loop of
    [maxMaterialLossAfterMove] never raises [maxLoss]. *)
Lemma maxMaterialLoss_skips_own_pieces chess (forWhite : bool) :
  (∀ m target,
     m ∈ legalMoves chess → Fen.get chess (to m) = Some target →
     pcolor target = (if forWhite then White else Black)) →
  maxMaterialLossAfterMove legalMoves chess forWhite = 0.
Proof.
  unfold maxMaterialLossAfterMove.
  generalize (legalMoves chess) as ms. intros ms H.
  induction ms as [|m ms IH]; simpl; [done|].
  assert (Hstep :
    lossStep chess (if forWhite then White else Black) 0 m = 0).
  { unfold lossStep. destruct (captured m); [|done].
    destruct (Fen.get chess (to m)) as [target|] eqn:Hget; [|done].
    rewrite (H m target); [|by left|done]. by rewrite decide_True. }
  rewrite Hstep. apply IH. intros m' t Hin. apply H. by right.
Qed.

End SacrificeFacts.

(** C1. On the game 1. e4 d5 2. Qg4 the queen can be taken at once by the
    bishop on c8, so the largest capturable value is 9 and the test of the
    specification flags 2. Qg4 as a sacrifice; [maxMaterialLossAfterMove]
    returns 0 there, the test of the code does not flag the move, and under
    a flat evaluation the move is classified Best. *)
Theorem hanging_queen_is_not_flagged :
  Analysis.materialBalance Sample.fen2 true = 0 ∧
  Analysis.materialBalance Sample.fen3 true = 0 ∧
  Analysis.maxRecapturableLoss Sample.legalMoves Sample.fen3 = 9 ∧
  Analysis.maxMaterialLossAfterMove Sample.legalMoves Sample.fen3 true = 0 ∧
  Analysis.sacrificeAsSpecified Sample.legalMoves Sample.fen2 Sample.fen3 true
    = true ∧
  Analysis.sacrificeTest Sample.legalMoves Sample.fen2 Sample.fen3 true
    = false ∧
  Sample.run Sample.evalFlat Sample.fetchAll Sample.game
    = Some (Sample.respond [Sample.e4Flat; Sample.d5Flat; Sample.Qg4Flat]).
Proof. repeat split; vm_compute; reflexivity. Qed.

(** * Counterexamples to the wording of the specification *)

(** C2. Partition a is fetched and the fetch of the other four rejects: the
    load rejects instead of completing with the positions of a. *)
Lemma partition_failure_blocks_load :
  ¬ OpeningBook.PartitionFailureTolerated Sample.fetchOnlyA Sample.replayLine.
Proof.
  intros H. destruct H as (book & Hload & _).
  - exists "a". split; [by left|]. by eexists.
  - vm_compute in Hload. discriminate.
Qed.

(** C3. 1. e4 is a book move that drops the evaluation by 150; its review
    records cpLoss 0, and yet the reply 1... d5 is flagged a punishment. *)
Lemma punishment_ignores_recorded_zero :
  Analysis.gatherEvaluations Sample.evalDrop
    (Analysis.pgnHistory Sample.game2) 10
  = Some [Api.mkEval 0 (Some "d2d4"); Api.mkEval (-150) (Some "d2d4");
          Api.mkEval (-150) (Some "d2d4")] ∧
  Sample.run Sample.evalDrop Sample.fetchAll Sample.game2
  = Some (Sample.respond [Sample.e4Book; Sample.d5Great]) ∧
  ¬ Analysis.PunishmentFollowsRecordedLoss
      (Analysis.pgnHistory Sample.game2)
      [Api.mkEval 0 (Some "d2d4"); Api.mkEval (-150) (Some "d2d4");
       Api.mkEval (-150) (Some "d2d4")]
      [Sample.e4Book; Sample.d5Great].
Proof.
  split; [vm_compute; reflexivity|]. split; [vm_compute; reflexivity|].
  intros H.
  destruct (H 0%nat Sample.e4Book 0 eq_refl eq_refl) as [Hflag _].
  destruct (Hflag eq_refl) as [Hprev _]. vm_compute in Hprev. by apply Hprev.
Qed.

(** C4. The evaluator reports no best move for the start position; 1. e4
    loses 320 centipawns and is a Blunder whose bestMoveUci is null. *)
Lemma blunder_without_best_move :
  Sample.run Sample.evalSwingNoBest Sample.fetchEmpty Sample.game1
  = Some (Sample.respond [Sample.e4Blunder]) ∧
  ¬ Analysis.BestMoveIffSuboptimal Sample.e4Blunder.
Proof.
  split; [vm_compute; reflexivity|].
  intros [_ H]. apply H; [|reflexivity].
  simpl. apply list_elem_of_In. simpl. by auto.
Qed.

(** * The exploration line *)

Section GameFacts.

Import Game.

Lemma at_index_lookup {A} (arr : list A) (k : nat) :
  at_index arr (Z.of_nat k) = arr !! k.
Proof.
  unfold at_index. destruct (Z.ltb_spec (Z.of_nat k) 0); [lia|].
  by rewrite Nat2Z.id.
Qed.

Lemma at_index_Some {A} (arr : list A) idx x :
  at_index arr idx = Some x → 0 ≤ idx < Z.of_nat (length arr).
Proof.
  unfold at_index. destruct (Z.ltb_spec idx 0); [done|].
  intros Hx%lookup_lt_Some. lia.
Qed.

Lemma at_index_None {A} (arr : list A) idx :
  ¬ (0 ≤ idx < Z.of_nat (length arr)) → at_index arr idx = None.
Proof.
  intros H. unfold at_index. destruct (Z.ltb_spec idx 0); [done|].
  apply lookup_ge_None. lia.
Qed.

(** C9. In Exploration, with the cursor on a node of the line,
    [extendVariation] keeps the nodes up to the cursor, drops the rest,
    appends the new node and moves the cursor onto it. *)
Theorem extend_truncates_then_appends san fen st :
  isVariation st = true →
  0 ≤ variationIndex st < Z.of_nat (length (variationMoves st)) →
  let st' := extendVariation san fen st in
  variationMoves st'
  = take (Z.to_nat (variationIndex st) + 1) (variationMoves st)
      ++ [mkNode san fen None] ∧
  variationIndex st' = variationIndex st + 1 ∧
  at_index (variationMoves st') (variationIndex st')
  = Some (mkNode san fen None) ∧
  Z.of_nat (length (variationMoves st')) = variationIndex st' + 1 ∧
  (∀ k, 0 ≤ k ≤ variationIndex st →
        at_index (variationMoves st') k = at_index (variationMoves st) k) ∧
  isVariation st' = true ∧
  variationBaseIndex st' = variationBaseIndex st ∧
  currentMoveIndex st' = currentMoveIndex st.
Proof.
  intros Hvar Hcur st'. subst st'.
  unfold extendVariation, extendVariationOf. simpl.
  set (c := variationIndex st) in *. set (l := variationMoves st) in *.
  assert (Hslice : slice0 (c + 1) l = take (Z.to_nat c + 1) l).
  { unfold slice0. destruct (Z.ltb_spec (c + 1) 0); [lia|].
    f_equal. lia. }
  rewrite Hslice.
  assert (Hlen : length (take (Z.to_nat c + 1) l) = (Z.to_nat c + 1)%nat).
  { rewrite length_take. lia. }
  repeat split; try done.
  - replace (c + 1) with (Z.of_nat (Z.to_nat c + 1)) by lia.
    rewrite at_index_lookup, lookup_app_r by lia.
    by rewrite Hlen, Nat.sub_diag.
  - rewrite length_app, Hlen. simpl. lia.
  - intros k Hk. replace k with (Z.of_nat (Z.to_nat k)) by lia.
    rewrite !at_index_lookup, lookup_app_l by lia.
    apply lookup_take_lt. lia.
Qed.

(** C10. [updateVariationEval] with an index outside the line leaves the
    line as it is; with an index inside it replaces the [eval] of that
    one node, keeping its [san] and [fen] and every other node.  The
    cursor, the base index, the pointer into the main line and the other
    cells are never touched. *)
Theorem update_eval_touches_one_field idx evalVal st :
  let st' := updateVariationEval idx evalVal st in
  (¬ (0 ≤ idx < Z.of_nat (length (variationMoves st))) → st' = st) ∧
  (∀ node, at_index (variationMoves st) idx = Some node →
           at_index (variationMoves st') idx
           = Some (mkNode (san node) (fen node) (Some evalVal))) ∧
  (0 ≤ idx < Z.of_nat (length (variationMoves st)) →
   is_Some (at_index (variationMoves st) idx)) ∧
  (∀ j, j ≠ idx →
        at_index (variationMoves st') j = at_index (variationMoves st) j) ∧
  length (variationMoves st') = length (variationMoves st) ∧
  variationIndex st' = variationIndex st ∧
  variationBaseIndex st' = variationBaseIndex st ∧
  currentMoveIndex st' = currentMoveIndex st ∧
  isVariation st' = isVariation st ∧
  orientation st' = orientation st ∧
  showTimestamps st' = showTimestamps st.
Proof.
  intros st'. subst st'. unfold updateVariationEval, setVariationMoves.
  simpl. repeat split.
  - intros Hout. rewrite at_index_None by done. by destruct st.
  - intros node Hnode. rewrite Hnode.
    pose proof (at_index_Some _ _ _ Hnode) as Hin.
    replace idx with (Z.of_nat (Z.to_nat idx)) at 2 by lia.
    rewrite at_index_lookup. apply list_lookup_insert_eq. lia.
  - intros Hin. unfold at_index. destruct (Z.ltb_spec idx 0); [lia|].
    apply lookup_lt_is_Some_2. lia.
  - intros j Hj. destruct (at_index (variationMoves st) idx) eqn:Hnode; [|done].
    pose proof (at_index_Some _ _ _ Hnode) as Hin.
    unfold at_index. destruct (Z.ltb_spec j 0); [done|].
    apply list_lookup_insert_ne. lia.
  - destruct (at_index (variationMoves st) idx); [|done].
    apply length_insert.
Qed.

End GameFacts.

(** * The statements on concrete runs *)

Section Witnesses.

Import ChessJs Analysis Sample.

Local Abbreviation dropTrace :=
  [Api.mkEval 0 (Some "d2d4"); Api.mkEval (-150) (Some "d2d4");
   Api.mkEval (-150) (Some "d2d4")].

Lemma book_review_reports_zero_loss_witness :
  run evalDrop fetchAll game2 = Some (respond [e4Book; d5Great]) ∧
  (∀ r, r ∈ [e4Book; d5Great] → classification r = Book → cpLoss r = 0).
Proof.
  assert (H : run evalDrop fetchAll game2 = Some (respond [e4Book; d5Great]))
    by (vm_compute; reflexivity).
  split; [exact H|].
  exact (proj1 (book_review_reports_zero_loss legalMoves evalDrop fetchAll
                  replayLine game2 10 OpeningBook.emptyCache _ H)).
Defined.

Lemma book_status_never_resumes_witness :
  run evalFlat fetchAll game = Some (respond [e4Flat; d5Flat; Qg4Flat]) ∧
  (OpeningBook.getOpeningBook fetchAll replayLine OpeningBook.emptyCache).1
    = Some bookA ∧
  (1 < 2)%nat ∧
  OpeningBook.isBookPosition (fen d5Flat) bookA = false ∧
  classification Qg4Flat ≠ Book.
Proof.
  assert (H : run evalFlat fetchAll game
              = Some (respond [e4Flat; d5Flat; Qg4Flat]))
    by (vm_compute; reflexivity).
  assert (Hb : (OpeningBook.getOpeningBook fetchAll replayLine
                  OpeningBook.emptyCache).1 = Some bookA)
    by (vm_compute; reflexivity).
  assert (Hoff : OpeningBook.isBookPosition (fen d5Flat) bookA = false)
    by (vm_compute; reflexivity).
  split; [exact H|]. split; [exact Hb|]. split; [lia|]. split; [exact Hoff|].
  exact (book_status_never_resumes legalMoves evalFlat fetchAll replayLine
           game 10 OpeningBook.emptyCache _ bookA 1%nat 2%nat d5Flat Qg4Flat
           H Hb ltac:(lia) eq_refl eq_refl (or_introl Hoff)).
Defined.

Lemma non_book_ply_follows_table_witness :
  run evalDrop fetchAll game2 = Some (respond [e4Book; d5Great]) ∧
  classification d5Great ≠ Book ∧
  ∃ ers played before after_ pun,
    gatherEvaluations evalDrop (pgnHistory game2) 10 = Some ers ∧
    pgnHistory game2 !! 1%nat = Some played ∧
    isWhite d5Great = bool_decide (color (move played) = White) ∧
    evalDrop 1%nat (fenBefore d5Great) 10%nat = Some before ∧
    evalDrop 2%nat (fen d5Great) 10%nat = Some after_ ∧
    cpLoss d5Great =
      (if isWhite d5Great
       then Z.max 0 (Api.evaluation before - Api.evaluation after_)
       else Z.max 0 (Api.evaluation after_ - Api.evaluation before)) ∧
    punishmentAt (pgnHistory game2) ers 1 (cpLoss d5Great) = Some pun ∧
    classification d5Great =
      firstMatch
        (thresholdTable (cpLoss d5Great)
           (sacrificeTest legalMoves (fenBefore d5Great) (fen d5Great)
              (isWhite d5Great)) pun).
Proof.
  assert (H : run evalDrop fetchAll game2 = Some (respond [e4Book; d5Great]))
    by (vm_compute; reflexivity).
  assert (Hnb : classification d5Great ≠ Book) by (simpl; discriminate).
  split; [exact H|]. split; [exact Hnb|].
  exact (non_book_ply_follows_table legalMoves evalDrop fetchAll replayLine
           game2 10 OpeningBook.emptyCache _ 1%nat d5Great H eq_refl Hnb).
Defined.

Lemma punishment_recomputes_previous_loss_witness :
  run evalDrop fetchAll game2 = Some (respond [e4Book; d5Great]) ∧
  ∃ ers prev rawPrev raw pun,
    gatherEvaluations evalDrop (pgnHistory game2) 10 = Some ers ∧
    [e4Book; d5Great] !! 0%nat = Some prev ∧
    rawLossAt (pgnHistory game2) ers 0 = Some rawPrev ∧
    rawLossAt (pgnHistory game2) ers 1 = Some raw ∧
    punishmentAt (pgnHistory game2) ers 1 raw = Some pun ∧
    (pun = true ↔ 120 ≤ rawPrev ∧ raw ≤ 15) ∧
    (classification prev ≠ Book → cpLoss prev = rawPrev) ∧
    (classification prev = Book → cpLoss prev = 0) ∧
    (classification d5Great ≠ Book →
     cpLoss d5Great = raw ∧
     classification d5Great =
       classifyMove raw
         (sacrificeTest legalMoves (fenBefore d5Great) (fen d5Great)
            (isWhite d5Great)) pun).
Proof.
  assert (H : run evalDrop fetchAll game2 = Some (respond [e4Book; d5Great]))
    by (vm_compute; reflexivity).
  split; [exact H|].
  exact (punishment_recomputes_previous_loss legalMoves evalDrop fetchAll
           replayLine game2 10 OpeningBook.emptyCache _ 0%nat d5Great
           H eq_refl).
Defined.

Lemma best_move_attached_when_reported_witness :
  run evalSwingNoBest fetchEmpty game1 = Some (respond [e4Blunder]) ∧
  ∃ res,
    evalSwingNoBest 0%nat (fenBefore e4Blunder) 10%nat = Some res ∧
    (bestMoveUci e4Blunder ≠ None
     ↔ classification e4Blunder
         ∈ [Inaccuracy; Mistake; Miss; Blunder; Excellent; Good]
       ∧ Api.bestMove res ≠ None) ∧
    (∀ u, bestMoveUci e4Blunder = Some u → Api.bestMove res = Some u).
Proof.
  assert (H : run evalSwingNoBest fetchEmpty game1
              = Some (respond [e4Blunder]))
    by (vm_compute; reflexivity).
  split; [exact H|].
  exact (best_move_attached_when_reported legalMoves evalSwingNoBest
           fetchEmpty replayLine game1 10 OpeningBook.emptyCache _ 0%nat
           e4Blunder H eq_refl).
Defined.

Lemma accuracy_is_linear_in_average_loss_witness :
  run evalSwingNoBest fetchEmpty game1 = Some (respond [e4Blunder]) ∧
  accuracy (respond [e4Blunder]) = accuracyOf 320 1 ∧
  (accuracy (respond [e4Blunder]) == 68)%Q.
Proof.
  assert (H : run evalSwingNoBest fetchEmpty game1
              = Some (respond [e4Blunder]))
    by (vm_compute; reflexivity).
  split; [exact H|].
  split; [|vm_compute; reflexivity].
  exact (proj1 (accuracy_is_linear_in_average_loss legalMoves evalSwingNoBest
                  fetchEmpty replayLine game1 10 OpeningBook.emptyCache _ H)).
Defined.

Lemma extend_truncates_then_appends_witness :
  Game.isVariation (exploring 1) = true ∧
  0 ≤ Game.variationIndex (exploring 1)
    < Z.of_nat (length (Game.variationMoves (exploring 1))) ∧
  Game.variationMoves (Game.extendVariation "Nf3" fen3 (exploring 1))
  = [nodeA; nodeB; nodeD] ∧
  Game.variationIndex (Game.extendVariation "Nf3" fen3 (exploring 1)) = 2.
Proof.
  assert (Hcur : 0 ≤ Game.variationIndex (exploring 1)
                 < Z.of_nat (length (Game.variationMoves (exploring 1))))
    by (simpl; lia).
  split; [reflexivity|]. split; [exact Hcur|].
  pose proof (extend_truncates_then_appends "Nf3" fen3 (exploring 1)
                eq_refl Hcur) as (Hmoves & Hidx & _).
  split; [exact Hmoves|exact Hidx].
Defined.

End Witnesses.

(** * Navigation: the rest of the hook *)

Section NavFacts.

Import Game Nav.

Variable data : option (list Types.MoveResult).

Lemma lastIndex_nonneg : 0 ≤ lastIndex data.
Proof. unfold lastIndex, mainFens. destruct data; simpl; lia. Qed.

Lemma lastIndex_moves : lastIndex data = Z.of_nat (length (rawMoves data)).
Proof.
  unfold lastIndex, mainFens, rawMoves.
  destruct data; simpl; rewrite ?length_fmap; lia.
Qed.

Lemma slice0_take {A} (l : list A) (c : Z) :
  0 ≤ c → slice0 (c + 1) l = take (Z.to_nat c + 1) l.
Proof.
  intros Hc. unfold slice0. destruct (Z.ltb_spec (c + 1) 0); [lia|].
  destruct (Z.min_spec (c + 1) (Z.of_nat (length l))) as [[_ ->]|[Hle ->]].
  - f_equal. lia.
  - rewrite Nat2Z.id. rewrite !take_ge; [done|lia|lia].
Qed.

Lemma at_index_in_range {A} (l : list A) (k : Z) :
  0 ≤ k < Z.of_nat (length l) → is_Some (at_index l k).
Proof.
  intros Hk. unfold at_index. destruct (Z.ltb_spec k 0); [lia|].
  apply lookup_lt_is_Some_2. lia.
Qed.

(** Each operation keeps a coherent state coherent. *)
Lemma perform_coherent a st :
  loadsNothing a = false → Coherent data st → Coherent data (perform data a st).
Proof.
  pose proof lastIndex_nonneg as Hlast.
  intros Ha [Hmain Hvar]. destruct st as [cmi o ts iv vm vi base].
  unfold Coherent in *. simpl in *.
  destruct a; simpl.
  - (* goToMove *) split; [lia|done].
  - (* nextMove *)
    unfold nextMove. simpl. destruct iv; simpl.
    + destruct (Hvar eq_refl) as [Hcur Hbase].
      destruct (Z.eqb_spec (Z.min (vi + 1) (Z.of_nat (length vm) - 1)) vi);
        simpl; (split; [lia|]); intros _; lia.
    + destruct (Z.eqb_spec (Z.min (cmi + 1) (lastIndex data)) cmi); simpl;
        (split; [lia|done]).
  - (* prevMove *)
    unfold prevMove. simpl. destruct iv; simpl.
    + destruct (Hvar eq_refl) as [Hcur Hbase].
      destruct (Z.gtb_spec vi 0); simpl; (split; [lia|]); [|done].
      intros _. lia.
    + destruct (Z.gtb_spec cmi 0); simpl; (split; [lia|done]).
  - (* exitVariation *) split; [lia|done].
  - (* flipBoard *) done.
  - (* setShowTimestamps *) done.
  - (* startVariation *) split; [lia|]. intros _. simpl. lia.
  - (* extendVariation *)
    split; [lia|]. intros ->. destruct (Hvar eq_refl) as [Hcur Hbase].
    rewrite slice0_take by lia. rewrite length_app, length_take. simpl. lia.
  - (* updateVariationEval *)
    split; [lia|]. intros ->. destruct (Hvar eq_refl) as [Hcur Hbase].
    destruct (at_index vm idx); [rewrite length_insert|]; lia.
  - (* loadVariation *)
    unfold loadVariation. simpl. destruct iv; simpl.
    + split; [lia|]. intros _. destruct (Hvar eq_refl) as [Hcur Hbase].
      rewrite slice0_take by lia. rewrite length_app, length_take. lia.
    + split; [lia|]. intros _. destruct sequence; [done|]. simpl. lia.
  - (* goToVariationMove *)
    split; [lia|]. intros ->. destruct (Hvar eq_refl) as [Hcur Hbase]. lia.
Qed.

Lemma initial_coherent : Coherent data initial.
Proof.
  pose proof lastIndex_nonneg. split; simpl; [lia|done].
Qed.

Lemma foldl_coherent actions st :
  Forall (λ a, loadsNothing a = false) actions →
  Coherent data st →
  Coherent data (foldl (λ st a, perform data a st) st actions).
Proof.
  intros Hall. revert st.
  induction Hall as [|a actions Ha _ IH]; intros st Hst; simpl; [done|].
  apply IH. by apply perform_coherent.
Qed.

(** X1. Whatever the user does, the hook stays coherent: from the initial
    state, any sequence of its operations that loads no empty sequence
    leaves the main-line pointer on a ply of the game and, in a variation,
    the cursor on a node of the line and the line anchored at the pointer. *)
Theorem reached_states_are_coherent actions :
  Forall (λ a, loadsNothing a = false) actions →
  Coherent data (Nav.run data actions).
Proof. intros Hall. apply foldl_coherent; [done|apply initial_coherent]. Qed.

(** X2. A coherent state always has a position to show: on the main line the
    position of the ply pointed at, in a variation the position of the node
    under the cursor, never the fallback.  The reviewed move is available
    exactly on the main line past the start position. *)
Theorem coherent_state_shows_a_position st :
  Coherent data st →
  (isVariation st = false →
   currentFen data st = at_index (mainFens data) (currentMoveIndex st)) ∧
  (isVariation st = true →
   ∃ node, at_index (variationMoves st) (variationIndex st) = Some node ∧
           currentFen data st = Some (fen node) ∧
           currentEval data st = default 0 (eval node)) ∧
  is_Some (currentFen data st) ∧
  (is_Some (currentMoveData data st)
   ↔ isVariation st = false ∧ 0 < currentMoveIndex st).
Proof.
  intros [Hmain Hvar].
  assert (Hfen : is_Some (at_index (mainFens data) (currentMoveIndex st))).
  { apply at_index_in_range. unfold lastIndex in Hmain. lia. }
  unfold currentFen, currentEval, currentMoveData.
  destruct (isVariation st) eqn:Hiv; simpl.
  - destruct (Hvar eq_refl) as [Hcur _].
    destruct (at_index_in_range (variationMoves st) (variationIndex st) Hcur)
      as [node Hnode].
    rewrite Hnode. simpl.
    split; [done|]. split; [by eauto|]. split; [by eauto|].
    split; [by intros [? ?]|by intros [? _]].
  - split; [done|]. split; [done|]. split; [done|]. split.
    + intros Hsome. split; [done|].
      destruct (Z.gtb_spec (currentMoveIndex st) 0); [lia|].
      by destruct Hsome as [? ?].
    + intros [_ Hpos]. destruct (Z.gtb_spec (currentMoveIndex st) 0); [|lia].
      apply at_index_in_range. rewrite <- lastIndex_moves. lia.
Qed.

(** X3. Stepping back from the first node of a variation leaves it: the outcome
    is exit-variation, the main line is shown again at the ply where the
    variation was anchored, and the nodes of the variation are kept as they
    were.  Further inside the variation the step is an undo of one node. *)
Theorem step_back_leaves_at_the_anchor st :
  Coherent data st →
  isVariation st = true →
  (variationIndex st = 0 →
   (prevMove st).1 = exit_variation ∧
   isVariation (prevMove st).2 = false ∧
   currentMoveIndex (prevMove st).2 = variationBaseIndex st ∧
   currentFen data (prevMove st).2
   = at_index (mainFens data) (variationBaseIndex st) ∧
   is_Some (currentFen data (prevMove st).2) ∧
   variationMoves (prevMove st).2 = variationMoves st) ∧
  (0 < variationIndex st →
   (prevMove st).1 = undo ∧
   isVariation (prevMove st).2 = true ∧
   variationIndex (prevMove st).2 = variationIndex st - 1 ∧
   variationMoves (prevMove st).2 = variationMoves st ∧
   currentMoveIndex (prevMove st).2 = currentMoveIndex st).
Proof.
  intros [Hmain Hvar] Hiv. destruct (Hvar Hiv) as [Hcur Hbase].
  unfold prevMove, currentFen. rewrite Hiv. split.
  - intros H0. rewrite H0. simpl. rewrite Hbase.
    repeat split; try done.
    apply at_index_in_range. unfold lastIndex in Hmain. lia.
  - intros Hpos. destruct (Z.gtb_spec (variationIndex st) 0); [|lia].
    simpl. done.
Qed.

(** X4. A step forward that moves can be taken back: [nextMove] returns a SAN
    exactly when it changes the state, and [prevMove] then restores the
    state it started from.  At the end of the line it returns nothing and
    changes nothing. *)
Theorem step_forward_is_undone_by_step_back st :
  Coherent data st →
  ((nextMove data st).1 = None ↔ (nextMove data st).2 = st) ∧
  ((nextMove data st).2 ≠ st →
   prevMove (nextMove data st).2 = (undo, st)) ∧
  (isVariation st = false → currentMoveIndex st = lastIndex data →
   nextMove data st = (None, st)) ∧
  (isVariation st = true →
   variationIndex st = Z.of_nat (length (variationMoves st)) - 1 →
   nextMove data st = (None, st)).
Proof.
  intros [Hmain Hvar]. destruct st as [cmi o ts iv vm vi base].
  unfold nextMove, prevMove, setVariationIndex, setCurrentMoveIndex.
  simpl in *. destruct iv; simpl.
  - destruct (Hvar eq_refl) as [Hcur Hbase].
    destruct (Z.eqb_spec (Z.min (vi + 1) (Z.of_nat (length vm) - 1)) vi)
      as [Heq|Hne]; simpl; [by repeat split|].
    assert (Hnext : Z.min (vi + 1) (Z.of_nat (length vm) - 1) = vi + 1)
      by lia.
    rewrite Hnext.
    destruct (at_index_in_range vm (vi + 1)) as [node ->]; [lia|]. simpl.
    split; [split; [done|intros [=]; lia]|].
    split.
    { intros _. destruct (Z.gtb_spec (vi + 1) 0); [|lia].
      simpl. do 2 f_equal; lia. }
    split; [done|]. intros _ Hend. lia.
  - destruct (Z.eqb_spec (Z.min (cmi + 1) (lastIndex data)) cmi)
      as [Heq|Hne]; simpl; [by repeat split|].
    assert (Hnext : Z.min (cmi + 1) (lastIndex data) = cmi + 1) by lia.
    rewrite Hnext. replace (cmi + 1 - 1) with cmi by lia.
    destruct (at_index_in_range (rawMoves data) cmi) as [mv ->];
      [rewrite <- lastIndex_moves; lia|]. simpl.
    split; [split; [done|intros [=]; lia]|].
    split.
    { intros _. destruct (Z.gtb_spec (cmi + 1) 0); [|lia].
      simpl. do 2 f_equal; lia. }
    split; [|done]. intros _ Hend. lia.
Qed.

(** X5. [goToMove] always lands on the main line, on the requested ply clamped
    into the game, and shows that ply's position; it keeps the nodes of a
    variation it leaves, and doing it twice is doing it once. *)
Theorem go_to_move_clamps index st :
  let st' := goToMove data index st in
  isVariation st' = false ∧
  0 ≤ currentMoveIndex st' ≤ lastIndex data ∧
  (0 ≤ index ≤ lastIndex data → currentMoveIndex st' = index) ∧
  (index < 0 → currentMoveIndex st' = 0) ∧
  (lastIndex data < index → currentMoveIndex st' = lastIndex data) ∧
  currentFen data st' = at_index (mainFens data) (currentMoveIndex st') ∧
  is_Some (currentFen data st') ∧
  variationMoves st' = variationMoves st ∧
  variationIndex st' = variationIndex st ∧
  goToMove data index st' = st'.
Proof.
  pose proof lastIndex_nonneg as Hlast.
  intros st'. subst st'. unfold goToMove, currentFen. simpl.
  repeat split; try lia; try done.
  apply at_index_in_range. unfold lastIndex in *. lia.
Qed.

Lemma at_index_insert {A} (l : list A) (idx j : Z) (x : A) :
  0 ≤ idx < Z.of_nat (length l) →
  at_index (<[Z.to_nat idx := x]> l) j
  = if decide (j = idx) then Some x else at_index l j.
Proof.
  intros Hidx. unfold at_index. destruct (decide (j = idx)) as [->|Hne].
  - destruct (Z.ltb_spec idx 0); [lia|]. apply list_lookup_insert_eq. lia.
  - destruct (Z.ltb_spec j 0); [done|]. apply list_lookup_insert_ne. lia.
Qed.

Lemma updated_node_at idx evalVal vm j :
  at_index
    (match at_index vm idx with
     | Some node =>
         <[Z.to_nat idx := mkNode (san node) (fen node) (Some evalVal)]> vm
     | None => vm
     end) j
  = match at_index vm j with
    | Some node =>
        Some (if decide (j = idx)
              then mkNode (san node) (fen node) (Some evalVal) else node)
    | None => None
    end.
Proof.
  destruct (at_index vm idx) as [node|] eqn:Hnode.
  - assert (Hin : 0 ≤ idx < Z.of_nat (length vm)).
    { unfold at_index in Hnode. destruct (Z.ltb_spec idx 0); [done|].
      apply lookup_lt_Some in Hnode. lia. }
    rewrite at_index_insert by done.
    destruct (decide (j = idx)) as [->|Hne]; [by rewrite Hnode|].
    by destruct (at_index vm j).
  - destruct (at_index vm j) eqn:Hj; [|done].
    destruct (decide (j = idx)) as [->|Hne]; [congruence|done].
Qed.

(** X6. An evaluation that arrives for node [idx] never changes the position
    shown, and changes the evaluation shown only when [idx] is the node
    under the cursor of the variation being shown, which then reads the
    new value. *)
Theorem eval_arrival_changes_only_its_node idx evalVal st :
  let st' := updateVariationEval idx evalVal st in
  currentFen data st' = currentFen data st ∧
  (idx ≠ variationIndex st → currentEval data st' = currentEval data st) ∧
  (isVariation st = false → currentEval data st' = currentEval data st) ∧
  (isVariation st = true → idx = variationIndex st →
   0 ≤ idx < Z.of_nat (length (variationMoves st)) →
   currentEval data st' = evalVal).
Proof.
  intros st'. subst st'.
  unfold updateVariationEval, setVariationMoves, currentFen, currentEval.
  simpl. rewrite updated_node_at.
  destruct (isVariation st); simpl.
  - destruct (at_index (variationMoves st) (variationIndex st))
      as [node|] eqn:Hnode; simpl.
    + destruct (decide (variationIndex st = idx)) as [Heq|Hne]; simpl;
        repeat split; try done; intros; congruence.
    + repeat split; try done. intros _ -> Hin.
      apply at_index_in_range in Hin as [? ?]. congruence.
  - by repeat split.
Qed.

Lemma extend_in_variation sanN fenN cmi o ts vm vi base :
  0 ≤ vi < Z.of_nat (length vm) →
  extendVariation sanN fenN (mkState cmi o ts true vm vi base)
  = mkState cmi o ts true
      (take (Z.to_nat vi + 1) vm ++ [mkNode sanN fenN None]) (vi + 1) base.
Proof.
  intros Hcur. unfold extendVariation, extendVariationOf, setVariationIndex,
    setVariationMoves. simpl. by rewrite slice0_take by lia.
Qed.

(** X7. A node just entered is the one shown, with no evaluation yet (read as
    0): after [startVariation] from any state, which anchors a one-node
    line at the current ply, and after [extendVariation] inside a
    variation. *)
Theorem new_node_is_shown_unevaluated sanN fenN st :
  (let st' := startVariation sanN fenN st in
   isVariation st' = true ∧
   variationMoves st' = [mkNode sanN fenN None] ∧
   variationIndex st' = 0 ∧
   variationBaseIndex st' = currentMoveIndex st ∧
   currentMoveIndex st' = currentMoveIndex st ∧
   currentFen data st' = Some fenN ∧
   currentEval data st' = 0 ∧
   currentMoveData data st' = None) ∧
  (isVariation st = true →
   0 ≤ variationIndex st < Z.of_nat (length (variationMoves st)) →
   let st' := extendVariation sanN fenN st in
   currentFen data st' = Some fenN ∧
   currentEval data st' = 0 ∧
   currentMoveData data st' = None).
Proof.
  split; [by repeat split|].
  intros Hiv Hcur. destruct st as [cmi o ts iv vm vi base]. simpl in *.
  subst iv. rewrite extend_in_variation by done.
  unfold currentFen, currentEval, currentMoveData. simpl.
  assert (Hat : at_index (take (Z.to_nat vi + 1) vm ++ [mkNode sanN fenN None])
                  (vi + 1) = Some (mkNode sanN fenN None)).
  { unfold at_index. destruct (Z.ltb_spec (vi + 1) 0); [lia|].
    rewrite lookup_app_r; rewrite length_take; [|lia].
    replace (Z.to_nat (vi + 1) - (Z.to_nat vi + 1) `min` length vm)%nat
      with 0%nat by lia. done. }
  by rewrite Hat.
Qed.

(** X8. Loading an engine line is entering its moves one by one: for a
    non-empty sequence of nodes without evaluation (as the page builds
    them), [loadVariation] inside a variation equals [extendVariation]
    applied to each node in turn, and from the main line it equals
    [startVariation] on the first node followed by [extendVariation] on the
    others.  An empty sequence loaded inside a variation is not a no-op: it
    cuts the line after the cursor. *)
Theorem load_is_repeated_extend first rest st :
  Forall (λ n, eval n = None) (first :: rest) →
  (isVariation st = true →
   0 ≤ variationIndex st < Z.of_nat (length (variationMoves st)) →
   loadVariation (first :: rest) st
   = foldl (λ s n, extendVariation (san n) (fen n) s) st (first :: rest)) ∧
  (isVariation st = false →
   loadVariation (first :: rest) st
   = foldl (λ s n, extendVariation (san n) (fen n) s)
       (startVariation (san first) (fen first) st) rest) ∧
  (isVariation st = true →
   0 ≤ variationIndex st < Z.of_nat (length (variationMoves st)) →
   loadVariation [] st
   = setVariationMoves (take (Z.to_nat (variationIndex st) + 1)) st).
Proof.
  intros Hall.
  assert (Hin : ∀ seq n cmi o ts vm vi base,
    Forall (λ n, eval n = None) (n :: seq) →
    0 ≤ vi < Z.of_nat (length vm) →
    loadVariation (n :: seq) (mkState cmi o ts true vm vi base)
    = foldl (λ s n, extendVariation (san n) (fen n) s)
        (mkState cmi o ts true vm vi base) (n :: seq)).
  { clear. intros seq. induction seq as [|m seq IH];
      intros n cmi o ts vm vi base Hall Hcur;
      apply Forall_cons in Hall as [Hn Hall];
      destruct n as [sn fn en]; simpl in Hn; subst en.
    - simpl. rewrite extend_in_variation by done.
      unfold loadVariation, setVariationIndex, setVariationMoves. simpl.
      rewrite slice0_take by lia. f_equal; lia.
    - change (foldl ?f ?s (?x :: ?l)) with (foldl f (f s x) l).
      cbv beta. simpl san. simpl fen.
      rewrite extend_in_variation by done.
      rewrite <- IH; [|done|rewrite length_app, length_take; simpl; lia].
      unfold loadVariation, setVariationIndex, setVariationMoves. simpl.
      rewrite !slice0_take by lia.
      f_equal; [|lia].
      rewrite (take_ge (take (Z.to_nat vi + 1) vm ++ _))
        by (rewrite length_app, length_take; simpl; lia).
      by rewrite <- app_assoc. }
  destruct st as [cmi o ts iv vm vi base]. simpl. split; [|split].
  - intros -> Hcur. by apply (Hin rest first).
  - intros ->. pose proof Hall as Hall'.
    apply Forall_cons in Hall as [Hn Hall].
    unfold startVariation, setVariationIndex, setVariationMoves,
      setVariationBaseIndex, setIsVariation. simpl.
    destruct first as [sn fn en]. simpl in Hn. subst en. simpl.
    destruct rest as [|m rest].
    + unfold loadVariation, setVariationIndex, setVariationMoves,
        setVariationBaseIndex, setIsVariation. simpl. done.
    + rewrite <- (Hin rest m); [|by apply Forall_cons in Hall'|simpl; lia].
      unfold loadVariation, setVariationIndex, setVariationMoves,
        setVariationBaseIndex, setIsVariation. simpl.
      f_equal. lia.
  - intros -> Hcur.
    unfold loadVariation, setVariationIndex, setVariationMoves. simpl.
    rewrite app_nil_r, slice0_take by lia. f_equal. lia.
Qed.

(** X9. Loading an empty sequence from the main line enters a variation that
    has no node under its cursor: the main-line position is still the one
    shown, a step forward does nothing and a step back leaves the variation
    at once.  Such a state is not coherent, which is why the invariant asks
    that nothing empty be loaded. *)
Theorem empty_load_shows_the_main_line st :
  Coherent data st →
  isVariation st = false →
  let st' := loadVariation [] st in
  isVariation st' = true ∧
  variationMoves st' = [] ∧
  variationIndex st' = -1 ∧
  currentFen data st' = currentFen data st ∧
  is_Some (currentFen data st') ∧
  currentEval data st' = 0 ∧
  nextMove data st' = (None, st') ∧
  (prevMove st').1 = exit_variation ∧
  ¬ Coherent data st'.
Proof.
  intros [Hmain _] Hiv. destruct st as [cmi o ts iv vm vi base].
  simpl in *. subst iv.
  unfold loadVariation, currentFen, currentEval, nextMove, prevMove. simpl.
  repeat split; try done.
  - apply at_index_in_range. unfold lastIndex in Hmain. lia.
  - intros [_ Hvar]. simpl in Hvar. destruct (Hvar eq_refl) as [? _]. lia.
Qed.

End NavFacts.

(** * The page's readers of the review *)

Section PageFacts.

Import Page.

Lemma lastClockFrom_spec moves isWhite n :
  (n ≤ length moves)%nat →
  match lastClockFrom moves isWhite n with
  | None => False
  | Some None =>
      ∀ i m, (i < n)%nat → moves !! i = Some m →
             Types.isWhite m = isWhite → hasClock m = false
  | Some (Some c) =>
      ∃ i m, (i < n)%nat ∧ moves !! i = Some m ∧
             Types.isWhite m = isWhite ∧ Types.clock m = Some c ∧
             c ≠ EmptyString ∧
             ∀ j m', (i < j < n)%nat → moves !! j = Some m' →
                     Types.isWhite m' = isWhite → hasClock m' = false
  end.
Proof.
  induction n as [|n IH]; intros Hn; simpl.
  - intros i m Hi. lia.
  - destruct (lookup_lt_is_Some_2 moves n) as [m Hm]; [lia|]. rewrite Hm.
    destruct (Bool.eqb (Types.isWhite m) isWhite && hasClock m) eqn:Hhit.
    + apply andb_true_iff in Hhit as [Hw Hc]. apply Bool.eqb_prop in Hw.
      unfold hasClock in Hc. destruct (Types.clock m) as [c|] eqn:Hclk;
        [|done].
      exists n, m. repeat split; try done; try lia.
      intros ->. done.
    + assert (Hmiss : Types.isWhite m = isWhite → hasClock m = false).
      { intros Hw. rewrite Hw, Bool.eqb_reflx in Hhit. done. }
      specialize (IH ltac:(lia)).
      destruct (lastClockFrom moves isWhite n) as [[c|]|]; [| |done].
      * destruct IH as (i & m0 & Hi & Hm0 & Hw & Hc & Hne & Hlater).
        exists i, m0. repeat split; try done; try lia.
        intros j m' Hj Hm' Hw'.
        destruct (decide (j = n)) as [->|Hjn].
        -- assert (m' = m) as -> by congruence. by apply Hmiss.
        -- apply (Hlater j m'); [lia|done|done].
      * intros i m0 Hi Hm0 Hw.
        destruct (decide (i = n)) as [->|Hin].
        -- assert (m0 = m) as -> by congruence. by apply Hmiss.
        -- apply (IH i m0); [lia|done|done].
Qed.

(** X10. [lastClock] returns the clock of the latest move before the current ply
    made by the given side and carrying a non-empty clock, and [null] when
    there is none; it never reads past the move list as long as the current
    ply is one of the game, and fails on the first read otherwise. *)
Theorem last_clock_is_the_latest_of_that_side moves currentIdx isWhite :
  (currentIdx ≤ Z.of_nat (length moves) →
   (∀ c, lastClock moves currentIdx isWhite = Some (Some c) ↔
      ∃ i m, 0 ≤ Z.of_nat i < currentIdx ∧ moves !! i = Some m ∧
             Types.isWhite m = isWhite ∧ Types.clock m = Some c ∧
             c ≠ EmptyString ∧
             ∀ j m', (i < j)%nat → Z.of_nat j < currentIdx →
                     moves !! j = Some m' →
                     Types.isWhite m' = isWhite → hasClock m' = false) ∧
   (lastClock moves currentIdx isWhite = Some None ↔
      ∀ i m, Z.of_nat i < currentIdx → moves !! i = Some m →
             Types.isWhite m = isWhite → hasClock m = false) ∧
   lastClock moves currentIdx isWhite ≠ None) ∧
  (Z.of_nat (length moves) < currentIdx →
   lastClock moves currentIdx isWhite = None).
Proof.
  unfold lastClock. split.
  - intros Hle.
    pose proof (lastClockFrom_spec moves isWhite (Z.to_nat currentIdx)
                  ltac:(lia)) as Hspec.
    destruct (lastClockFrom moves isWhite (Z.to_nat currentIdx))
      as [[c0|]|]; [| |done].
    + destruct Hspec as (i & m & Hi & Hm & Hw & Hc & Hne & Hlater).
      split; [|split; [|done]].
      * intros c. split.
        -- intros [= <-]. exists i, m. repeat split; try done; try lia.
           intros j m' Hj Hj'. apply Hlater. lia.
        -- intros (i' & m' & Hi' & Hm' & Hw' & Hc' & Hne' & Hlater').
           assert (Hhas : ∀ x cx, Types.clock x = Some cx → cx ≠ EmptyString →
                                  hasClock x = true).
           { intros x cx Hx Hcx. unfold hasClock. rewrite Hx.
             by destruct cx. }
           destruct (Nat.lt_trichotomy i i') as [Hlt|[->|Hgt]].
           ++ assert (Hno : hasClock m' = false)
                by (apply (Hlater i' m'); [lia|done|done]).
              rewrite (Hhas m' c) in Hno; done.
           ++ congruence.
           ++ assert (Hno : hasClock m = false)
                by (apply (Hlater' i m); [lia|lia|done|done]).
              rewrite (Hhas m c0) in Hno; done.
      * split; [done|]. intros Hnone.
        assert (Hno : hasClock m = false)
          by (apply (Hnone i m); [lia|done|done]).
        unfold hasClock in Hno. rewrite Hc in Hno. by destruct c0.
    + split; [|split; [|done]].
      * intros c. split; [done|].
        intros (i & m & Hi & Hm & Hw & Hc & Hne & _).
        assert (Hno : hasClock m = false)
          by (apply (Hspec i m); [lia|done|done]).
        unfold hasClock in Hno. rewrite Hc in Hno. by destruct c.
      * split; [|done]. intros _ i m Hi. apply Hspec. lia.
  - intros Hgt. destruct (Z.to_nat currentIdx) as [|n] eqn:Hn; [lia|].
    simpl. rewrite lookup_ge_None_2; [done|lia].
Qed.

(** X11. The coordinate move a review carries decodes to the squares it was
    built from: for two-character squares, [uci = from + to + promotion]
    read back by the page gives [from], [to] and the promotion letter, and
    [uciBestArrow] draws the arrow from [from] to [to]. *)
Theorem uci_decodes_to_its_squares (from to : string) (promotion : option string) :
  String.length from = 2%nat →
  String.length to = 2%nat →
  (∀ p, promotion = Some p → String.length p = 1%nat) →
  let uci := from +:+ to +:+ default EmptyString promotion in
  uciParts uci = (from, to, promotion) ∧
  uciBestArrow uci = Some (mkArrow from to "rgba(79,195,247,0.85)").
Proof.
  intros Hf Ht Hp uci. subst uci.
  destruct from as [|f1 [|f2 [|? ?]]]; try done.
  destruct to as [|t1 [|t2 [|? ?]]]; try done.
  destruct promotion as [p|]; simpl.
  - specialize (Hp p eq_refl). destruct p as [|p1 [|? ?]]; try done.
  - done.
Qed.

End PageFacts.

(** * The opening book: keys, cache and tables *)

Section BookFacts.

Import OpeningBook.

Lemma split_not_nil c s : Str.split c s ≠ [].
Proof.
  destruct s as [|a s]; simpl; [done|].
  destruct (Ascii.eqb a c); [done|]. by destruct (Str.split c s).
Qed.

Lemma split_free_id c s : Text.free c s = true → Str.split c s = [s].
Proof.
  induction s as [|a s IH]; simpl; [done|].
  intros [Ha Hs]%andb_true_iff. apply negb_true_iff in Ha.
  rewrite Ha, IH; done.
Qed.

Lemma split_app_sep c p rest :
  Text.free c p = true →
  Str.split c (p +:+ String c rest) = p :: Str.split c rest.
Proof.
  induction p as [|a p IH]; simpl.
  - intros _. by rewrite Ascii.eqb_refl.
  - intros [Ha Hp]%andb_true_iff. apply negb_true_iff in Ha.
    rewrite Ha, IH; done.
Qed.

Lemma split_parts_free c s :
  Forall (λ p, Text.free c p = true) (Str.split c s).
Proof.
  induction s as [|a s IH]; simpl; [by repeat constructor|].
  destruct (Ascii.eqb a c) eqn:Ha; [by constructor|].
  destruct (Str.split c s) as [|h t].
  { constructor; [simpl; by rewrite Ha|constructor]. }
  apply Forall_cons in IH as [Hh Ht]. constructor; [|done].
  simpl. by rewrite Ha, Hh.
Qed.

Lemma split_join c parts :
  parts ≠ [] →
  Forall (λ p, Text.free c p = true) parts →
  Str.split c (Str.join (String c EmptyString) parts) = parts.
Proof.
  induction parts as [|p parts IH]; intros Hne Hall; [done|].
  apply Forall_cons in Hall as [Hp Hall].
  destruct parts as [|q parts]; simpl.
  - by apply split_free_id.
  - change (String c EmptyString +:+ ?x) with (String c x).
    rewrite split_app_sep by done. f_equal. by apply IH.
Qed.

(** X12. A key is a fixed point of [normalizeFen], and two FENs that agree on
    board, side to move, castling rights and en-passant square have the
    same key whatever follows: a book lookup does not see the move
    counters. *)
Theorem book_lookup_ignores_move_counters
    (fen board turn castling ep : string) (tail1 tail2 : list string)
    (book : gset string) :
  Forall (λ p, Text.free " " p = true) [board; turn; castling; ep] →
  Forall (λ p, Text.free " " p = true) tail1 →
  Forall (λ p, Text.free " " p = true) tail2 →
  normalizeFen (normalizeFen fen) = normalizeFen fen ∧
  normalizeFen (Str.join " " ([board; turn; castling; ep] ++ tail1))
  = Str.join " " [board; turn; castling; ep] ∧
  isBookPosition (Str.join " " ([board; turn; castling; ep] ++ tail1)) book
  = isBookPosition (Str.join " " ([board; turn; castling; ep] ++ tail2)) book.
Proof.
  intros Hkey H1 H2.
  assert (Hnorm : ∀ tail, Forall (λ p, Text.free " " p = true) tail →
    normalizeFen (Str.join " " ([board; turn; castling; ep] ++ tail))
    = Str.join " " [board; turn; castling; ep]).
  { intros tail Ht. unfold normalizeFen.
    rewrite split_join; [done|done|]. by apply Forall_app. }
  split; [|split].
  - unfold normalizeFen.
    pose proof (split_parts_free " " fen) as Hfree.
    pose proof (split_not_nil " " fen) as Hne.
    rewrite split_join.
    + by rewrite take_take.
    + by destruct (Str.split " " fen).
    + by apply Forall_take.
  - by apply Hnorm.
  - unfold isBookPosition. by rewrite !Hnorm.
Qed.

(** X13. The first settled outcome of the book load is the only one: whatever a
    call finds or loads, every later call returns the same value and leaves
    the cache alone, even if the partitions could now be fetched.  A load
    that rejected is never tried again. *)
Theorem book_cache_is_sticky
    (fetch1 fetch2 : string → option string)
    (replay1 replay2 : string → list string) (cache : Cache) :
  let first := getOpeningBook fetch1 replay1 cache in
  getOpeningBook fetch2 replay2 first.2 = (first.1, first.2) ∧
  (cache = emptyCache → first.1 = loadBook fetch1 replay1) ∧
  (cache = emptyCache → loadBook fetch1 replay1 = None →
   (getOpeningBook fetch2 replay2 first.2).1 = None).
Proof.
  intros first. subst first. unfold getOpeningBook.
  destruct cache as [[b|] [p|]]; simpl; try (by repeat split).
  destruct (loadBook fetch1 replay1) as [b|] eqn:Hload; simpl;
    repeat split; try done.
Qed.

(** X14. The header row of a table is never read as an opening, and a table
    that is only a header, or empty, holds no position. *)
Theorem header_row_is_skipped (replayLine : string → list string)
    (header body : string) :
  Text.free newline header = true →
  partitionPositions replayLine (header +:+ String newline body)
  = Str.split newline body ≫= linePositions replayLine ∧
  partitionPositions replayLine header = [] ∧
  partitionPositions replayLine EmptyString = [].
Proof.
  intros Hfree. unfold partitionPositions.
  rewrite split_app_sep by done.
  rewrite (split_free_id newline header) by done. done.
Qed.

End BookFacts.

(** * More on a whole review *)

Section ReviewMore.

Import ChessJs Analysis.

Variable legalMoves : string → list Move.
Variable evaluatePosition : nat → string → nat → option Api.EvalResult.
Variable fetchText : string → option string.
Variable replayLine : string → list string.



Lemma plyReview_fields history clocks ers book i ib r ib' :
  plyReview legalMoves history clocks ers book i ib = Some (r, ib') →
  ∃ played,
    history !! i = Some played ∧
    san r = ChessJs.san (move played) ∧
    uci r = from (move played) +:+ to (move played)
            +:+ default EmptyString (promotion (move played)) ∧
    fen r = after played ∧
    fens history !! i = Some (fenBefore r) ∧
    clock r = clocks !! i ∧
    moveNumber r = (i / 2 + 1)%nat.
Proof.
  unfold plyReview. intros H.
  destruct (history !! i) as [pl|] eqn:Hpl; simpl in H; [|discriminate].
  destruct (evaluations ers !! i) as [eb|]; simpl in H; [|discriminate].
  destruct (evaluations ers !! (i + 1)%nat) as [ea|]; simpl in H;
    [|discriminate].
  destruct (fens history !! i) as [fb|] eqn:Hfb; simpl in H; [|discriminate].
  destruct (fens history !! (i + 1)%nat) as [fa|] eqn:Hfa; simpl in H;
    [|discriminate].
  destruct (ers !! i) as [res|]; simpl in H; [|discriminate].
  destruct (punishmentAt _ _ _ _) as [pun|]; simpl in H; [|discriminate].
  assert (Hafter : fa = after pl).
  { unfold fens in Hfa. replace (i + 1)%nat with (S i) in Hfa by lia.
    simpl in Hfa. rewrite list_lookup_fmap, Hpl in Hfa. by injection Hfa. }
  exists pl.
  destruct (ib && OpeningBook.isBookPosition fa book);
    injection H as <- <-; simpl; by repeat split.
Qed.

(** X16. The reviews mirror the game move for move: there is one review per
    move, in order; review [i] carries the SAN and the coordinates of move
    [i], its clock annotation if any, the move number shared by a White and
    a Black ply, the evaluation the evaluator returned for the position
    reached, and positions that chain (the first review starts from the
    start position, each later one from the position the previous review
    reached). *)
Theorem reviews_mirror_the_game pgn depth cache resp :
  (analyzeGame legalMoves evaluatePosition fetchText replayLine
     pgn depth cache).1 = Some resp →
  length (moves resp) = length (pgnHistory pgn) ∧
  (∀ r, moves resp !! 0%nat = Some r → fenBefore r = START_FEN) ∧
  (∀ i r r', moves resp !! i = Some r → moves resp !! S i = Some r' →
             fenBefore r' = fen r) ∧
  ∀ i r, moves resp !! i = Some r →
    ∃ played res,
      pgnHistory pgn !! i = Some played ∧
      san r = ChessJs.san (move played) ∧
      uci r = from (move played) +:+ to (move played)
              +:+ default EmptyString (promotion (move played)) ∧
      fen r = after played ∧
      isWhite r = bool_decide (color (move played) = White) ∧
      clock r = pgnClocks pgn !! i ∧
      moveNumber r = (i / 2 + 1)%nat ∧
      evaluatePosition (S i) (fen r) depth = Some res ∧
      evaluation r = Api.evaluation res.
Proof.
  intros H.
  assert (Hfields : ∀ i r, moves resp !! i = Some r →
    ∃ ers played,
      gatherEvaluations evaluatePosition (pgnHistory pgn) depth = Some ers ∧
      pgnHistory pgn !! i = Some played ∧
      san r = ChessJs.san (move played) ∧
      uci r = from (move played) +:+ to (move played)
              +:+ default EmptyString (promotion (move played)) ∧
      fen r = after played ∧
      fens (pgnHistory pgn) !! i = Some (fenBefore r) ∧
      clock r = pgnClocks pgn !! i ∧
      moveNumber r = (i / 2 + 1)%nat ∧
      isWhite r = bool_decide (color (move played) = White) ∧
      fens (pgnHistory pgn) !! (i + 1)%nat = Some (fen r) ∧
      evaluations ers !! (i + 1)%nat = Some (evaluation r)).
  { intros i r Hi.
    destruct (analyze_lookup _ _ _ _ _ _ _ _ _ _ H Hi)
      as (ers & book & ib & ib' & Hg & _ & Hply & _).
    destruct (plyReview_fields _ _ _ _ _ _ _ _ Hply)
      as (pl & Hpl & Hsan & Huci & Hfen & Hfb & Hclk & Hnum).
    apply plyReview_inv in Hply
      as (pl' & res & eb & ea & pun & Hpl' & _ & _ & Hea & _ & Hfa
          & Hw & _ & Hev & _ & _).
    assert (pl' = pl) as -> by congruence.
    exists ers, pl. rewrite Hev. by repeat split. }
  split; [|split; [|split]].
  - apply analyze_inv in H as (? & ? & st & _ & _ & Hp & ->).
    by apply pass_chain in Hp as (? & _).
  - intros r Hr. destruct (Hfields _ _ Hr)
      as (_ & _ & _ & _ & _ & _ & _ & Hfb & _). simpl in Hfb. congruence.
  - intros i r r' Hr Hr'.
    destruct (Hfields _ _ Hr)
      as (_ & _ & _ & _ & _ & _ & _ & _ & _ & _ & _ & Hfa & _).
    destruct (Hfields _ _ Hr')
      as (_ & _ & _ & _ & _ & _ & _ & Hfb & _).
    replace (i + 1)%nat with (S i) in Hfa by lia. congruence.
  - intros i r Hr.
    destruct (Hfields _ _ Hr)
      as (ers & pl & Hg & Hpl & Hsan & Huci & Hfen & _ & Hclk & Hnum & Hw
          & Hfa & Hea).
    unfold evaluations in Hea. rewrite list_lookup_fmap in Hea.
    destruct (ers !! (i + 1)%nat) as [res|] eqn:Hres; [|done].
    simpl in Hea. injection Hea as Hea.
    destruct (gather_lookup _ _ _ _ _ _ Hg Hres) as (f & Hf & He).
    rewrite Hfa in Hf. injection Hf as <-.
    replace (i + 1)%nat with (S i) in He by lia.
    exists pl, res. by repeat split.
Qed.

Lemma chain_book_prefix history clocks ers book i ib rs ib'' :
  PlyChain legalMoves history clocks ers book i ib rs ib'' →
  ∀ j r, rs !! j = Some r →
    (classification r = Book
     ↔ ib = true ∧
       ∀ k rk, (k ≤ j)%nat → rs !! k = Some rk →
               OpeningBook.isBookPosition (fen rk) book = true).
Proof.
  intros Hc. induction Hc as [|i ib r0 ib' rs ib'' Hp Hc IH]; intros j r Hj;
    [done|].
  apply plyReview_inv in Hp
    as (? & ? & ? & ? & ? & _ & _ & _ & _ & _ & _ & _ & _ & _ & _ & Hcase).
  assert (Hhead : classification r0 = Book
                  ↔ ib = true ∧ OpeningBook.isBookPosition (fen r0) book = true).
  { destruct Hcase as [(-> & Hin & Hcl & _)|(Hoff & _ & Hcl & _)].
    - by split.
    - split.
      + intros Hb. rewrite Hb in Hcl. symmetry in Hcl.
        by apply classifyMove_not_Book in Hcl.
      + intros [-> Hin]. destruct Hoff; congruence. }
  assert (Hflag : ib' = true
                  ↔ ib = true ∧ OpeningBook.isBookPosition (fen r0) book = true).
  { destruct Hcase as [(-> & Hin & _ & _ & ->)|(Hoff & _ & _ & ->)].
    - by split.
    - split; [done|]. intros [-> Hin]. destruct Hoff; congruence. }
  destruct j as [|j]; simpl in Hj.
  - injection Hj as ->. rewrite Hhead. split.
    + intros [-> Hin]. split; [done|]. intros k rk Hk Hrk.
      assert (k = 0%nat) as -> by lia. simpl in Hrk. congruence.
    + intros [-> Hall]. split; [done|]. by apply (Hall 0%nat).
  - rewrite (IH j r Hj), Hflag. split.
    + intros [[-> Hin] Hall]. split; [done|]. intros k rk Hk Hrk.
      destruct k as [|k]; simpl in Hrk; [congruence|].
      apply (Hall k); [lia|done].
    + intros [-> Hall]. split.
      * split; [done|]. by apply (Hall 0%nat); [lia|].
      * intros k rk Hk Hrk. apply (Hall (S k)); [lia|done].
Qed.

(** X17. The book moves of a review are exactly its opening prefix: a move is
    classified [Book] if and only if the position it reaches and the
    positions reached by all moves before it are in the book. *)
Theorem book_moves_are_the_opening_prefix pgn depth cache resp book i r :
  (analyzeGame legalMoves evaluatePosition fetchText replayLine
     pgn depth cache).1 = Some resp →
  (OpeningBook.getOpeningBook fetchText replayLine cache).1 = Some book →
  moves resp !! i = Some r →
  (classification r = Book
   ↔ ∀ k rk, (k ≤ i)%nat → moves resp !! k = Some rk →
             OpeningBook.isBookPosition (fen rk) book = true).
Proof.
  intros H Hb Hi.
  apply analyze_inv in H as (ers & book' & st & _ & Hb' & Hp & ->).
  assert (book' = book) as -> by congruence.
  apply pass_chain in Hp as (_ & _ & Hc). simpl in *.
  rewrite (chain_book_prefix _ _ _ _ _ _ _ _ Hc i r Hi). split.
  - by intros [_ ?].
  - by intros ?.
Qed.

(** X18. More loss never gives a better score: the accuracy falls as the total
    loss grows, and it is 0 exactly from an average loss of 1000
    centipawns on. *)
Theorem accuracy_falls_with_loss (t t' : Z) (n : nat) :
  t ≤ t' →
  (accuracyOf t' n <= accuracyOf t n)%Q ∧
  (n ≠ 0%nat → 1000 * Z.of_nat n ≤ t → (accuracyOf t n == 0)%Q) ∧
  (n ≠ 0%nat → t < 1000 * Z.of_nat n → (0 < accuracyOf t n)%Q).
Proof.
  intros Ht. unfold accuracyOf.
  destruct (decide (n = 0%nat)) as [->|Hn].
  { split; [apply Qle_refl|]. by split. }
  assert (Hpos : (0 < inject_Z (Z.of_nat n))%Q).
  { change 0%Q with (inject_Z 0). rewrite <- Zlt_Qlt. lia. }
  assert (Hval : ∀ x : Z,
    (100 - inject_Z x / inject_Z (Z.of_nat n) / 10
     == inject_Z (1000 * Z.of_nat n - x) / (inject_Z (Z.of_nat n) * 10))%Q).
  { intros x. unfold Z.sub. rewrite inject_Z_plus, inject_Z_opp, inject_Z_mult.
    change (inject_Z 1000) with 1000%Q.
    field. intros Hz. rewrite Hz in Hpos. by apply Qlt_irrefl in Hpos. }
  assert (Hden : (0 < inject_Z (Z.of_nat n) * 10)%Q).
  { apply Qmult_lt_0_compat; [done|reflexivity]. }
  split; [|split].
  - apply Q.max_le_compat_l. rewrite !Hval.
    apply Qmult_le_compat_r.
    + rewrite <- Zle_Qle. lia.
    + apply Qlt_le_weak, Qinv_lt_0_compat, Hden.
  - intros _ Hbig. apply Q.max_l. rewrite Hval.
    apply Qle_shift_div_r; [done|]. rewrite Qmult_0_l.
    change 0%Q with (inject_Z 0). rewrite <- Zle_Qle. lia.
  - intros _ Hsmall. apply Qlt_le_trans with
      (inject_Z (1000 * Z.of_nat n - t) / (inject_Z (Z.of_nat n) * 10))%Q.
    + apply Qlt_shift_div_l; [done|]. rewrite Qmult_0_l.
      change 0%Q with (inject_Z 0). rewrite <- Zlt_Qlt. lia.
    + rewrite <- Hval. apply Q.le_max_r.
Qed.

(** X19. The loss [maxMaterialLossAfterMove] reports is a piece value between 0
    and 9 and never exceeds the largest value the replies can capture. *)
Theorem reported_material_loss_is_bounded chess (forWhite : bool) :
  0 ≤ maxMaterialLossAfterMove legalMoves chess forWhite ∧
  maxMaterialLossAfterMove legalMoves chess forWhite
    ≤ maxRecapturableLoss legalMoves chess ∧
  maxRecapturableLoss legalMoves chess ≤ 9.
Proof.
  unfold maxMaterialLossAfterMove, maxRecapturableLoss.
  generalize (legalMoves chess) as ms. intros ms.
  set (ourColor := if forWhite then White else Black).
  set (g := λ (best : Z) (m : Move),
              match captured m with
              | Some cap => Z.max best (PIECE_VALUES cap)
              | None => best
              end).
  assert (Hstep : ∀ a b m, 0 ≤ a ≤ b → b ≤ 9 →
            0 ≤ lossStep chess ourColor a m ≤ g b m ∧ g b m ≤ 9).
  { intros a b m Hab Hb. unfold lossStep, g.
    destruct (captured m) as [cap|]; [|lia].
    assert (0 ≤ PIECE_VALUES cap ≤ 9) by (destruct cap; simpl; lia).
    destruct (Fen.get chess (to m)) as [target|]; [|lia].
    destruct (decide (pcolor target = ourColor)); lia. }
  assert (Hfold : ∀ a b, 0 ≤ a ≤ b → b ≤ 9 →
            0 ≤ foldl (lossStep chess ourColor) a ms ≤ foldl g b ms
            ∧ foldl g b ms ≤ 9).
  { induction ms as [|m ms IH]; intros a b Hab Hb; simpl; [lia|].
    destruct (Hstep a b m Hab Hb). by apply IH. }
  destruct (Hfold 0 0 ltac:(lia) ltac:(lia)). lia.
Qed.

(** X20. In the position a move leads to, every capture open to the side to
    move takes a piece of the side that has just moved, or lands on an
    empty square (en passant).  For such replies [maxMaterialLossAfterMove]
    is 0 and the sacrifice test compares the two material balances
    alone. *)
Theorem sacrifice_test_sees_no_recapture fenBefore fenAfter (isWhite : bool) :
  (∀ m target,
     m ∈ legalMoves fenAfter → Fen.get fenAfter (to m) = Some target →
     pcolor target = (if isWhite then White else Black)) →
  maxMaterialLossAfterMove legalMoves fenAfter isWhite = 0 ∧
  sacrificeTest legalMoves fenBefore fenAfter isWhite
  = (materialBalance fenAfter isWhite - materialBalance fenBefore isWhite
     <=? -2).
Proof.
  intros Hreplies.
  pose proof (maxMaterialLoss_skips_own_pieces legalMoves fenAfter isWhite
                Hreplies) as Hzero.
  split; [done|]. unfold sacrificeTest. rewrite Hzero. f_equal. lia.
Qed.

End ReviewMore.

(** * Reading the PGN text *)

Section PgnFacts.

Import Pgn.

Local Arguments String.append !_ _ / : simpl nomatch.

Lemma stripPrefix_app p s : stripPrefix p (p +:+ s) = Some s.
Proof. induction p as [|a p IH]; simpl; [done|]. by rewrite Ascii.eqb_refl. Qed.


Lemma app_string_assoc (u v w : string) : (u +:+ v) +:+ w = u +:+ (v +:+ w).
Proof. induction u as [|a u IH]; simpl; [done|]. by rewrite IH. Qed.

Lemma length_app_string (u v : string) :
  String.length (u +:+ v) = (String.length u + String.length v)%nat.
Proof. induction u as [|a u IH]; simpl; [done|]. by rewrite IH. Qed.

Lemma span_run f v a s :
  allChars f v = true → f a = false →
  span f (v +:+ String a s) = (v, String a s).
Proof.
  intros Hv Ha. induction v as [|b v IH]; simpl in *.
  - by rewrite Ha.
  - apply andb_true_iff in Hv as [Hb Hv]. by rewrite Hb, IH.
Qed.













Lemma matchClockAt_needs_percent c d r :
  Ascii.eqb "%" d = false → matchClockAt (String c (String d r)) = None.
Proof.
  intros Hd. unfold matchClockAt. cbn [stripPrefix].
  destruct (Ascii.eqb "[" c); [|done]. by rewrite Hd.
Qed.

Lemma scanClocks_free pre a y :
  Text.free "%" pre = true → Ascii.eqb "%" a = false →
  scanClocks 0 (pre +:+ String a y) = scanClocks 0 (String a y).
Proof.
  intros Hpre Ha. induction pre as [|c pre IH]; [done|].
  cbn [Text.free] in Hpre. apply andb_true_iff in Hpre as [Hc Hpre].
  change (String c pre +:+ String a y) with (String c (pre +:+ String a y)).
  cbn [scanClocks].
  assert (Hnone : matchClockAt (String c (pre +:+ String a y)) = None).
  { destruct pre as [|d pre].
    - by apply matchClockAt_needs_percent.
    - change (String d pre +:+ String a y)
        with (String d (pre +:+ String a y)).
      apply matchClockAt_needs_percent.
      cbn [Text.free] in Hpre. apply andb_true_iff in Hpre as [Hd _].
      apply negb_true_iff in Hd. by rewrite Ascii.eqb_sym. }
  rewrite Hnone. by apply IH.
Qed.

Lemma matchClockAt_single c : matchClockAt (String c EmptyString) = None.
Proof.
  unfold matchClockAt. cbn [stripPrefix]. by destruct (Ascii.eqb "[" c).
Qed.

Lemma scanClocks_no_percent s :
  Text.free "%" s = true → scanClocks 0 s = [].
Proof.
  induction s as [|c s IH]; [done|]. intros Hs.
  cbn [Text.free] in Hs. apply andb_true_iff in Hs as [_ Hs].
  cbn [scanClocks].
  assert (Hnone : matchClockAt (String c s) = None).
  { destruct s as [|d s]; [apply matchClockAt_single|].
    apply matchClockAt_needs_percent.
    cbn [Text.free] in Hs. apply andb_true_iff in Hs as [Hd _].
    apply negb_true_iff in Hd. by rewrite Ascii.eqb_sym. }
  rewrite Hnone. by apply IH.
Qed.

Lemma scanClocks_skip u rest :
  scanClocks (String.length u) (u +:+ rest) = scanClocks 0 rest.
Proof.
  induction u as [|c u IH]; [done|].
  change (String c u +:+ rest) with (String c (u +:+ rest)).
  cbn [String.length scanClocks]. destruct rest; exact IH.
Qed.

Lemma trimStart_id a s :
  Str.isSpace a = false → Str.trimStart (String a s) = String a s.
Proof. intros Ha. cbn [Str.trimStart]. by rewrite Ha. Qed.

Lemma clock_char_is_no_space a :
  isClockChar a = true → Str.isSpace a = false.
Proof.
  unfold isClockChar, Str.isSpace. generalize (nat_of_ascii a). intros n H.
  apply orb_true_iff in H as [H|H];
    [apply orb_true_iff in H as [H|H]|].
  - apply andb_true_iff in H as [H1 H2].
    apply Nat.leb_le in H1, H2.
    apply orb_false_iff. split.
    + apply andb_false_iff. right. apply Nat.leb_gt. lia.
    + apply Nat.eqb_neq. lia.
  - apply Nat.eqb_eq in H. subst n. done.
  - apply Nat.eqb_eq in H. subst n. done.
Qed.

Lemma matchClockAt_tag t rest :
  t ≠ EmptyString → allChars isClockChar t = true →
  matchClockAt (clockTag t +:+ rest) = Some (t, rest).
Proof.
  intros Hne Ht. unfold matchClockAt, clockTag.
  change ("[%clk " +:+ t +:+ "]") with ("[%clk" +:+ String " " (t +:+ "]")).
  rewrite app_string_assoc, stripPrefix_app.
  change (String " " (t +:+ "]") +:+ rest)
    with (String " " ((t +:+ "]") +:+ rest)).
  rewrite app_string_assoc.
  change ("]" +:+ rest) with (String "]" rest).
  destruct t as [|a t]; [done|].
  cbn [allChars] in Ht. pose proof Ht as Ht'.
  apply andb_true_iff in Ht' as [Ha _].
  change (String a t +:+ String "]" rest)
    with (String a (t +:+ String "]" rest)).
  cbn [mbind option_bind spaces1].
  change (Str.isSpace " ") with true. cbn [Str.trimStart].
  rewrite (clock_char_is_no_space a Ha).
  cbn [mbind option_bind].
  change (String a (t +:+ String "]" rest))
    with (String a t +:+ String "]" rest).
  change (Str.isSpace " ") with true. cbv iota.
  rewrite span_run; [|done|done].
  cbn [Str.isEmpty stripPrefix mbind option_bind].
  by rewrite Ascii.eqb_refl.
Qed.

(** X22. Clock comments are read in the order they are written: in a text whose
    part before the first comment has no percent sign, [extractClocks]
    gives the time of that comment, shortened, followed by the clocks of
    what comes after it; a text without percent sign has no clock.  A time
    loses one leading hour field that is zero, written with one digit or
    with two. *)
Theorem clock_comments_are_read_in_order (pre t rest : string) :
  Text.free "%" pre = true →
  t ≠ EmptyString →
  allChars isClockChar t = true →
  extractClocks (pre +:+ clockTag t +:+ rest)
  = shortenClock t :: extractClocks rest ∧
  extractClocks pre = [] ∧
  shortenClock ("0:" +:+ rest) = rest ∧
  shortenClock ("00:" +:+ rest) = rest.
Proof.
  intros Hpre Hne Ht. unfold extractClocks.
  split; [|split; [by apply scanClocks_no_percent|split; [done|]]].
  - pose proof (matchClockAt_tag t rest Hne Ht) as Hm.
    unfold clockTag in *.
    change ("[%clk " +:+ t +:+ "]") with (String "[" ("%clk " +:+ t +:+ "]"))
      in *.
    change (String "[" ("%clk " +:+ t +:+ "]") +:+ rest)
      with (String "[" (("%clk " +:+ t +:+ "]") +:+ rest)) in *.
    rewrite scanClocks_free by done.
    cbn [scanClocks]. rewrite Hm. f_equal.
    replace (String.length (String "[" (("%clk " +:+ t +:+ "]") +:+ rest))
             - String.length rest - 1)%nat
      with (String.length ("%clk " +:+ t +:+ "]")).
    + apply scanClocks_skip.
    + change (String.length (String "[" ?x)) with (S (String.length x)).
      rewrite (length_app_string ("%clk " +:+ t +:+ "]") rest). lia.
  - unfold shortenClock.
    change ("00:" +:+ rest) with (String "0" (String "0" (String ":" rest))).
    done.
Qed.

End PgnFacts.

(** * The response and the PGN text *)

Section EntryFacts.

Import ChessJs Analysis Pgn.

Variable legalMoves : string → list Move.
Variable evaluatePosition : nat → string → nat → option Api.EvalResult.
Variable fetchText : string → option string.
Variable replayLine : string → list string.


End EntryFacts.

(** * The further statements on concrete inputs *)

Section MoreWitnesses.

Import ChessJs Analysis Sample Tour.

Lemma reached_states_are_coherent_witness :
  Forall (λ a, Nav.loadsNothing a = false) actions ∧
  Nav.Coherent data (Nav.run data actions) ∧
  Nav.run data actions
  = Game.mkState 3 Game.black false false [nodeD; nodeD; nodeC] 0 2.
Proof.
  assert (Hall : Forall (λ a, Nav.loadsNothing a = false) actions)
    by (repeat constructor).
  split; [exact Hall|]. split; [|vm_compute; reflexivity].
  exact (reached_states_are_coherent data actions Hall).
Defined.

Lemma inVariation_coherent (cursor : Z) :
  0 ≤ cursor < 3 → Nav.Coherent data (inVariation cursor).
Proof.
  intros Hc. split; [unfold Nav.lastIndex; simpl; lia|].
  intros _. simpl. lia.
Defined.

Lemma onMainLine_coherent (k : Z) :
  0 ≤ k ≤ 3 → Nav.Coherent data (onMainLine k).
Proof.
  intros Hk. split; [unfold Nav.lastIndex; simpl; lia|]. intros [=].
Defined.

Lemma coherent_state_shows_a_position_witness :
  Nav.Coherent data (inVariation 1) ∧
  is_Some (Nav.currentFen data (inVariation 1)).
Proof.
  assert (Hc : Nav.Coherent data (inVariation 1))
    by (apply inVariation_coherent; lia).
  split; [exact Hc|].
  exact (proj1 (proj2 (proj2
           (coherent_state_shows_a_position data (inVariation 1) Hc)))).
Defined.

Lemma step_back_leaves_at_the_anchor_witness :
  Nav.Coherent data (inVariation 0) ∧
  Game.isVariation (inVariation 0) = true ∧
  (Nav.prevMove (inVariation 0)).1 = Nav.exit_variation ∧
  Nav.currentFen data (Nav.prevMove (inVariation 0)).2 = Some fen2.
Proof.
  assert (Hc : Nav.Coherent data (inVariation 0))
    by (apply inVariation_coherent; lia).
  split; [exact Hc|]. split; [reflexivity|].
  destruct (proj1 (step_back_leaves_at_the_anchor data (inVariation 0)
                     Hc eq_refl) eq_refl)
    as (Hout & _ & _ & Hfen & _).
  split; [exact Hout|exact Hfen].
Defined.

Lemma step_forward_is_undone_by_step_back_witness :
  Nav.Coherent data (onMainLine 1) ∧
  (Nav.nextMove data (onMainLine 1)).1 = Some "d5" ∧
  Nav.prevMove (Nav.nextMove data (onMainLine 1)).2
  = (Nav.undo, onMainLine 1).
Proof.
  assert (Hc : Nav.Coherent data (onMainLine 1))
    by (apply onMainLine_coherent; lia).
  split; [exact Hc|]. split; [reflexivity|].
  apply (proj1 (proj2 (step_forward_is_undone_by_step_back data
                         (onMainLine 1) Hc))).
  intros [=].
Defined.

Lemma load_is_repeated_extend_witness :
  Forall (λ n, Game.eval n = None) [nodeD; nodeC] ∧
  Game.isVariation (inVariation 1) = true ∧
  Nav.loadVariation [nodeD; nodeC] (inVariation 1)
  = Game.extendVariation "Qg4" fen3
      (Game.extendVariation "Nf3" fen3 (inVariation 1)).
Proof.
  assert (Hall : Forall (λ n, Game.eval n = None) [nodeD; nodeC])
    by (repeat constructor).
  split; [exact Hall|]. split; [reflexivity|].
  apply (proj1 (load_is_repeated_extend nodeD [nodeC] (inVariation 1) Hall));
    [reflexivity|cbn; lia].
Defined.

Lemma empty_load_shows_the_main_line_witness :
  Nav.Coherent data (onMainLine 2) ∧
  Game.isVariation (onMainLine 2) = false ∧
  Nav.currentFen data (Nav.loadVariation [] (onMainLine 2)) = Some fen2 ∧
  Game.isVariation (Nav.loadVariation [] (onMainLine 2)) = true.
Proof.
  assert (Hc : Nav.Coherent data (onMainLine 2))
    by (apply onMainLine_coherent; lia).
  split; [exact Hc|]. split; [reflexivity|].
  destruct (empty_load_shows_the_main_line data (onMainLine 2) Hc eq_refl)
    as (Hiv & _ & _ & Hfen & _).
  split; [rewrite Hfen; reflexivity|exact Hiv].
Defined.

Lemma uci_decodes_to_its_squares_witness :
  String.length "e7" = 2%nat ∧ String.length "e8" = 2%nat ∧
  Page.uciParts "e7e8q" = ("e7", "e8", Some "q") ∧
  Page.uciBestArrow "e7e8q"
  = Some (Page.mkArrow "e7" "e8" "rgba(79,195,247,0.85)").
Proof.
  split; [reflexivity|]. split; [reflexivity|].
  apply (uci_decodes_to_its_squares "e7" "e8" (Some "q") eq_refl eq_refl).
  intros p [= <-]. reflexivity.
Defined.

Lemma book_lookup_ignores_move_counters_witness :
  Forall (λ p, Text.free " " p = true)
    ["rnbqkbnr/pppppppp/8/8/4P3/8/PPPP1PPP/RNBQKBNR"; "b"; "KQkq"; "-"] ∧
  OpeningBook.isBookPosition
    (Str.join " " (["rnbqkbnr/pppppppp/8/8/4P3/8/PPPP1PPP/RNBQKBNR";
                    "b"; "KQkq"; "-"] ++ ["0"; "1"])) bookA
  = OpeningBook.isBookPosition
      (Str.join " " (["rnbqkbnr/pppppppp/8/8/4P3/8/PPPP1PPP/RNBQKBNR";
                      "b"; "KQkq"; "-"] ++ ["12"; "30"])) bookA.
Proof.
  assert (Hkey : Forall (λ p, Text.free " " p = true)
            ["rnbqkbnr/pppppppp/8/8/4P3/8/PPPP1PPP/RNBQKBNR"; "b"; "KQkq"; "-"])
    by (repeat constructor).
  split; [exact Hkey|].
  apply (book_lookup_ignores_move_counters fen1 _ _ _ _ ["0"; "1"]
           ["12"; "30"] bookA Hkey); repeat constructor.
Defined.

Lemma header_row_is_skipped_witness :
  Text.free OpeningBook.newline "eco" = true ∧
  OpeningBook.partitionPositions replayLine "eco" = [].
Proof.
  split; [reflexivity|].
  exact (proj1 (proj2 (header_row_is_skipped replayLine "eco" "" eq_refl))).
Defined.

Lemma reviews_mirror_the_game_witness :
  run evalDrop fetchAll game2 = Some (respond [e4Book; d5Great]) ∧
  length [e4Book; d5Great] = length (pgnHistory game2) ∧
  fenBefore d5Great = fen e4Book.
Proof.
  assert (H : run evalDrop fetchAll game2 = Some (respond [e4Book; d5Great]))
    by (vm_compute; reflexivity).
  split; [exact H|].
  destruct (reviews_mirror_the_game legalMoves evalDrop fetchAll replayLine
              game2 10 OpeningBook.emptyCache _ H)
    as (Hlen & _ & Hchain & _).
  split; [exact Hlen|].
  exact (Hchain 0%nat e4Book d5Great eq_refl eq_refl).
Defined.

Lemma book_moves_are_the_opening_prefix_witness :
  run evalFlat fetchAll game = Some (respond [e4Flat; d5Flat; Qg4Flat]) ∧
  (OpeningBook.getOpeningBook fetchAll replayLine OpeningBook.emptyCache).1
    = Some bookA ∧
  (classification e4Flat = Book
   ↔ ∀ k rk, (k ≤ 0)%nat → [e4Flat; d5Flat; Qg4Flat] !! k = Some rk →
             OpeningBook.isBookPosition (fen rk) bookA = true).
Proof.
  assert (H : run evalFlat fetchAll game
              = Some (respond [e4Flat; d5Flat; Qg4Flat]))
    by (vm_compute; reflexivity).
  assert (Hb : (OpeningBook.getOpeningBook fetchAll replayLine
                  OpeningBook.emptyCache).1 = Some bookA)
    by (vm_compute; reflexivity).
  split; [exact H|]. split; [exact Hb|].
  exact (book_moves_are_the_opening_prefix legalMoves evalFlat fetchAll
           replayLine game 10 OpeningBook.emptyCache _ bookA 0%nat e4Flat
           H Hb eq_refl).
Defined.

Lemma accuracy_falls_with_loss_witness :
  320 ≤ 1000 ∧
  (accuracyOf 1000 1 <= accuracyOf 320 1)%Q ∧
  (accuracyOf 1000 1 == 0)%Q.
Proof.
  split; [lia|].
  destruct (accuracy_falls_with_loss 320 1000 1 ltac:(lia)) as (Hle & _ & _).
  split; [exact Hle|reflexivity].
Defined.

Lemma sacrifice_test_sees_no_recapture_witness :
  (∀ m target,
     m ∈ legalMoves fen3 → Fen.get fen3 (to m) = Some target →
     pcolor target = White) ∧
  maxMaterialLossAfterMove legalMoves fen3 true = 0.
Proof.
  assert (Hreplies : ∀ m target,
            m ∈ legalMoves fen3 → Fen.get fen3 (to m) = Some target →
            pcolor target = White).
  { intros m target Hin. change (legalMoves fen3) with replies3 in Hin.
    unfold replies3 in Hin.
    repeat (apply elem_of_cons in Hin as [->|Hin];
            [vm_compute; intros [= <-]; reflexivity|]).
    by apply elem_of_nil in Hin. }
  split; [exact Hreplies|].
  exact (proj1 (sacrifice_test_sees_no_recapture legalMoves fen2 fen3 true
                  Hreplies)).
Defined.



Lemma clock_comments_are_read_in_order_witness :
  Text.free "%" "1. e4 {" = true ∧
  Pgn.allChars Pgn.isClockChar "0:05:00" = true ∧
  Pgn.extractClocks ("1. e4 {" +:+ Pgn.clockTag "0:05:00" +:+ "} d5")
  = "05:00" :: Pgn.extractClocks "} d5".
Proof.
  split; [reflexivity|]. split; [reflexivity|].
  exact (proj1 (clock_comments_are_read_in_order "1. e4 {" "0:05:00" "} d5"
                  eq_refl ltac:(discriminate) eq_refl)).
Defined.


End MoreWitnesses.
